(** * Hitster trainer: the session store of [App], embedded and verified

    The component under study is a single React function component.  Its
    state is a handful of [useState] cells, one [useRef] flag and one
    entry of [localStorage]; its behaviour is two effects and a few event
    handlers.  The development has three layers:

    - [Js]: the part of the JavaScript runtime the component leans on
      (strings, numbers, JSON values, property reads, [JSON.stringify]);
    - [Hitster]: the component itself, handler by handler, together with
      the way React queues state updates and re-runs effects;
    - the properties of the session store. *)

From Stdlib Require Import QArith Qround Qcanon Qpower Lqa.
From Stdlib Require Import DecimalString DecimalNat.
From stdpp Require Import base option list numbers strings gmap.

Local Open Scope nat_scope.

(** * The JavaScript runtime, as far as the component uses it *)

Module Js.

(** ** Strings

    A JavaScript string is a sequence of UTF-16 code units. *)

Definition code_unit := N.
Abbreviation jsstring := (list N).

(** The code units of an ASCII literal. *)
Definition lit (s : string) : jsstring :=
  List.map Ascii.N_of_ascii (String.list_ascii_of_string s).

(** The class [\s] of a regular expression without the [u] flag:
    WhiteSpace and LineTerminator of ECMAScript. *)
Definition is_whitespace (c : code_unit) : bool :=
  bool_decide (c ∈ [9; 10; 11; 12; 13; 32; 160; 5760; 8232; 8233; 8239; 8287;
                    12288; 65279]%N)
  || ((8192 <=? c)%N && (c <=? 8202)%N).

(** [s.replace(/\s+/g, '')]: every maximal run of whitespace is replaced
    by the empty string, which leaves the code units outside [\s]. *)
Definition strip_whitespace (s : jsstring) : jsstring :=
  List.filter (fun c => negb (is_whitespace c)) s.

(** [String(n)] for a non-negative integer below 10^21. *)
Definition String_of_nat (n : nat) : jsstring :=
  lit (NilEmpty.string_of_uint (Nat.to_uint n)).

(** ** Numbers

    [JSON.parse] delivers finite numbers and, for a literal too large for
    a double ([1e999]), an infinity; it never delivers NaN, and the
    arithmetic of the component ([x + 1], [Math.min], [Math.max]) never
    produces one from these.  Finite numbers are rationals, and the
    arithmetic on [index] is exact; the product inside [shuffle] is
    rounded as a product of doubles is, see [to_double].  The two zeros
    are one number: [ToString] and [JSON.stringify] write [-0] as [0],
    [x + 1], [Math.min] and [Math.max] give the same for both up to the
    sign of a zero, and the component does nothing else with a number;
    the dependency check of the persist effect does tell them apart,
    but what the effect then writes is the same text. *)

Inductive number :=
  | Fin (q : Qc)
  | PosInf
  | NegInf.

Definition num_of_Z (z : Z) : number := Fin (Q2Qc (inject_Z z)).
Definition num_of_nat (n : nat) : number := num_of_Z (Z.of_nat n).

(** [x + c] for a finite constant [c]. *)
Definition num_add (x : number) (c : Z) : number :=
  match x with
  | Fin q => Fin (q + Q2Qc (inject_Z c))%Qc
  | PosInf => PosInf
  | NegInf => NegInf
  end.

Definition num_le (x y : number) : Prop :=
  match x, y with
  | NegInf, _ => True
  | _, PosInf => True
  | Fin a, Fin b => (a <= b)%Qc
  | _, _ => False
  end.

Definition num_lt (x y : number) : Prop :=
  match x, y with
  | PosInf, _ => False
  | _, NegInf => False
  | Fin a, Fin b => (a < b)%Qc
  | _, _ => True
  end.

Definition num_leb (x y : number) : bool :=
  match x, y with
  | NegInf, _ => true
  | _, PosInf => true
  | Fin a, Fin b => bool_decide (a <= b)%Qc
  | _, _ => false
  end.

Definition Math_min (x y : number) : number := if num_leb x y then x else y.
Definition Math_max (x y : number) : number := if num_leb x y then y else x.

(** The array index a number denotes as a property key: [ToString(x)] is
    an array index exactly when [x] is a non-negative integer. *)
Definition num_index (x : number) : option nat :=
  match x with
  | Fin q =>
      if bool_decide (Qden q = 1%positive) && (0 <=? Qnum q)%Z
      then Some (Z.to_nat (Qnum q)) else None
  | _ => None
  end.

(** ** Doubles

    [Math.random()] returns a double, and a product of doubles is the
    double nearest to the exact product, the one with the even
    significand when two are equally near.  A double has 53 significant
    bits; below [2^-1022] the doubles are the multiples of [2^-1074]. *)

Definition pow2 (e : Z) : Q := (2 ^ e)%Q.

(** The integer nearest to [q], the even one of two equally near. *)
Definition round_half_even (q : Q) : Z :=
  let f := Qfloor q in
  match (q - inject_Z f ?= 1 # 2)%Q with
  | Lt => f
  | Gt => (f + 1)%Z
  | Eq => if Z.even f then f else (f + 1)%Z
  end.

(** The binade of [x > 0]: the [e] with [2^e <= x < 2^(e+1)]. *)
Definition binade (x : Q) : Z :=
  let e := (Z.log2 (Qnum x) - Z.log2 (Z.pos (Qden x)))%Z in
  if Qle_bool (pow2 e) x then e else (e - 1)%Z.

(** The distance between neighbouring doubles in the binade of [x > 0]. *)
Definition ulp (x : Q) : Q := pow2 (Z.max (binade x) (-1022) - 52).

Definition round_pos (x : Q) : Q :=
  (inject_Z (round_half_even (x / ulp x)) * ulp x)%Q.

(** The double nearest to [x], for [x] below [2^1024], where the doubles
    end. *)
Definition to_double (x : Q) : Q :=
  match (x ?= 0)%Q with
  | Eq => 0%Q
  | Gt => round_pos x
  | Lt => (- round_pos (- x))%Q
  end.

(** A double in [[0, 1)], which is what [Math.random()] returns:
    [m / 2^c] with a significand [m] below [2^53] and [c] at most 1074. *)
Definition unit_double (r : Q) : Prop :=
  ∃ m c : Z, (0 ≤ m < 2 ^ 53)%Z ∧ (0 ≤ c ≤ 1074)%Z ∧ (m < 2 ^ c)%Z ∧
             (r == inject_Z m / inject_Z (2 ^ c))%Q.

(** ** Values

    What [JSON.parse] can deliver, plus [undefined] and the built-in
    objects a property read can reach through a prototype. *)

#[local] Unset Elimination Schemes.

Inductive val :=
  | VUndef
  | VNull
  | VBool (b : bool)
  | VNum (x : number)
  | VStr (s : jsstring)
  | VArr (elems : list val)
  | VObj (props : list (jsstring * val))
  | VBuiltin (name : jsstring).

#[local] Set Elimination Schemes.

(** ToBoolean. *)
Definition truthy (v : val) : bool :=
  match v with
  | VUndef | VNull => false
  | VBool b => b
  | VNum (Fin q) => negb (bool_decide (q = 0%Qc))
  | VNum _ => true
  | VStr s => negb (bool_decide (s = []))
  | VArr _ | VObj _ | VBuiltin _ => true
  end.

Definition Array_isArray (v : val) : bool :=
  match v with VArr _ => true | _ => false end.

(** [typeof v === 'number'] *)
Definition typeof_number (v : val) : bool :=
  match v with VNum _ => true | _ => false end.

(** The elements of a value that passed [Array.isArray], and the number
    in a value that passed [typeof]. *)
Definition elements (v : val) : list val :=
  match v with VArr l => l | _ => [] end.

Definition number_of (v : val) : number :=
  match v with VNum x => x | _ => num_of_nat 0 end.

(** ** Property reads *)

(** The own property [name] of an object literal or parsed object. *)
Fixpoint own_property (props : list (jsstring * val)) (name : jsstring) : option val :=
  match props with
  | [] => None
  | (k, v) :: rest => if bool_decide (k = name) then Some v else own_property rest name
  end.

(** [v.name] for a name that no built-in prototype defines ([rows],
    [order], [index]): an object answers with its own property, any other
    value but [null] and [undefined] answers [undefined], and reading a
    property of [null] or [undefined] throws ([None]). *)
Definition prop (v : val) (name : jsstring) : option val :=
  match v with
  | VUndef | VNull => None
  | VObj props => Some (default VUndef (own_property props name))
  | _ => Some VUndef
  end.

(** The names an array inherits from [Array.prototype] and
    [Object.prototype] (ECMAScript 2023). *)
Definition Array_prototype : list jsstring :=
  List.map lit
    ["at"; "concat"; "constructor"; "copyWithin"; "entries"; "every";
     "fill"; "filter"; "find"; "findIndex"; "findLast"; "findLastIndex";
     "flat"; "flatMap"; "forEach"; "includes"; "indexOf"; "join"; "keys";
     "lastIndexOf"; "map"; "pop"; "push"; "reduce"; "reduceRight";
     "reverse"; "shift"; "slice"; "some"; "sort"; "splice";
     "toLocaleString"; "toReversed"; "toSorted"; "toSpliced"; "toString";
     "unshift"; "values"; "with";
     "hasOwnProperty"; "isPrototypeOf"; "propertyIsEnumerable"; "valueOf";
     "__proto__"; "__defineGetter__"; "__defineSetter__";
     "__lookupGetter__"; "__lookupSetter__"]%string.

(** A property key, as far as a read from an array can tell keys apart:
    the string of a number, a literal string, or a string that holds a
    comma or a space (the join of several elements, the text of a
    function), which names no property of an array. *)
Inductive key :=
  | KNum (x : number)
  | KStr (s : jsstring)
  | KOther.

(** ToPropertyKey; [None] is a TypeError.

    An object converts through its [toString]: a parsed object inherits
    the one of [Object.prototype], which answers "[object Object]",
    unless it has an own property of that name.  An own [toString] is a
    parsed value, which cannot be called; [valueOf] is tried next, and is
    either an own property, not callable either, or the inherited one,
    which answers the object itself and not a primitive: the conversion
    throws.  (A built-in never sits inside a parsed value, and the
    component stores none; an own [toString] holding one is taken as any
    other.)

    An array converts by [join], which converts each element but [null]
    and [undefined] in turn: no element gives the empty string, one
    element the string of that element, several elements a string with a
    comma; the conversion throws when that of an element does. *)
Fixpoint to_key (v : val) : option key :=
  match v with
  | VUndef => Some (KStr (lit "undefined"))
  | VNull => Some (KStr (lit "null"))
  | VBool true => Some (KStr (lit "true"))
  | VBool false => Some (KStr (lit "false"))
  | VNum x => Some (KNum x)
  | VStr s => Some (KStr s)
  | VArr [] => Some (KStr [])
  | VArr [x] =>
      match x with
      | VUndef | VNull => Some (KStr [])
      | _ => to_key x
      end
  | VArr l =>
      if forallb (fun x => match x with
                           | VUndef | VNull => true
                           | _ => match to_key x with Some _ => true | None => false end
                           end) l
      then Some KOther else None
  | VObj props =>
      match own_property props (lit "toString") with
      | None => Some (KStr (lit "[object Object]"))
      | Some _ => None
      end
  | VBuiltin _ => Some KOther
  end.

Definition digit (c : code_unit) : option nat :=
  if (48 <=? c)%N && (c <=? 57)%N then Some (N.to_nat (c - 48)) else None.

Fixpoint digits_value (acc : nat) (s : jsstring) : option nat :=
  match s with
  | [] => Some acc
  | c :: s' =>
      match digit c with
      | Some d => digits_value (10 * acc + d) s'
      | None => None
      end
  end.

(** The array index a string denotes: decimal digits without a leading
    zero. *)
Definition parse_index (s : jsstring) : option nat :=
  match s with
  | [] => None
  | [48%N] => Some 0
  | 48%N :: _ => None
  | _ => digits_value 0 s
  end.

(** What an array [a] holds under a key: an element, [length], an
    inherited built-in, or [undefined]. *)
Definition array_read (a : list val) (k : key) : val :=
  match k with
  | KNum x =>
      match num_index x with
      | Some n => default VUndef (a !! n)
      | None => VUndef
      end
  | KStr s =>
      if bool_decide (s = lit "length") then VNum (num_of_nat (length a))
      else match parse_index s with
           | Some n => default VUndef (a !! n)
           | None =>
               if bool_decide (s ∈ Array_prototype) then VBuiltin s else VUndef
           end
  | KOther => VUndef
  end.

(** [a[k]] for an array [a]: the key is converted, which can throw
    ([None]); the read itself cannot. *)
Definition array_get (a : list val) (k : val) : option val :=
  array_read a <$> to_key k.

(** [base[k]]: reading from [null] or [undefined] throws ([None]), and so
    does a key that does not convert; an array answers as [array_get]
    says, an object with its own property.  (The component reads with a
    computed key from arrays only.) *)
Definition get (base : val) (k : val) : option val :=
  match base with
  | VUndef | VNull => None
  | VArr a => array_get a k
  | VObj props =>
      key ← to_key k;
      Some (match key with
            | KStr s => default VUndef (own_property props s)
            | _ => VUndef
            end)
  | _ => _ ← to_key k; Some VUndef
  end.

(** ** JSON and the stored text

    A string in [localStorage] is known by what the component can observe
    of it: whether it is empty, and what [JSON.parse] makes of it. *)

Inductive text :=
  | EmptyText          (* the empty string *)
  | Garbage            (* a non-empty string that [JSON.parse] rejects *)
  | Json (v : val).    (* a JSON text that parses to [v] *)

Definition text_truthy (t : text) : bool :=
  match t with EmptyText => false | _ => true end.

(** [JSON.parse]; [None] is a SyntaxError. *)
Definition JSON_parse (t : text) : option val :=
  match t with Json v => Some v | _ => None end.

(** What a value looks like once serialised: a non-finite number is
    written as [null], an [undefined] or function element of an array as
    [null], and a property holding one is left out.  [None]: the value
    has no serialisation. *)
Fixpoint serialised (v : val) : option val :=
  match v with
  | VUndef | VBuiltin _ => None
  | VNull => Some VNull
  | VBool b => Some (VBool b)
  | VNum (Fin q) => Some (VNum (Fin q))
  | VNum _ => Some VNull
  | VStr s => Some (VStr s)
  | VArr l => Some (VArr (List.map (fun x => default VNull (serialised x)) l))
  | VObj props =>
      Some (VObj ((fix go (ps : list (jsstring * val)) :=
                     match ps with
                     | [] => []
                     | (k, x) :: rest =>
                         match serialised x with
                         | Some y => (k, y) :: go rest
                         | None => go rest
                         end
                     end) props))
  end.

(** [JSON.stringify(v)], stored: [setItem] turns the result [undefined]
    into the string "undefined", which does not parse. *)
Definition JSON_stringify (v : val) : text :=
  match serialised v with
  | Some v' => Json v'
  | None => Garbage
  end.

End Js.

(** * The component *)

Module Hitster.
Import Js.

(** ** [shuffle] *)

(** [a[j]] and [a[j] = v] on the elements of an array, for an integer
    [j]: a read outside the array gives [undefined]; a write at or past
    the end grows the array, leaving holes that read as [undefined]; a
    write at a negative [j] sets a property that is not an element. *)
Definition arr_read (a : list val) (j : Z) : val :=
  if (0 <=? j)%Z then default VUndef (a !! Z.to_nat j) else VUndef.

Definition arr_write (a : list val) (j : Z) (v : val) : list val :=
  if (j <? 0)%Z then a
  else if Z.to_nat j <? length a then <[Z.to_nat j := v]> a
  else a ++ replicate (Z.to_nat j - length a) VUndef ++ [v].

(** [Math.floor(r * (i + 1))] for the result [r] of [Math.random()], a
    double: [i + 1] is exact, the product is rounded to a double, and the
    floor of a double is exact. *)
Definition scaled_floor (r : Q) (i : nat) : Z :=
  Qfloor (to_double (r * inject_Z (Z.of_nat (i + 1)))).

(** The loop of [shuffle], from [i] down to 1.  [random k] is the result
    of the [k]-th call of [Math.random()], [calls] the number of calls
    made so far. *)
Fixpoint shuffle_loop (random : nat → Q) (calls i : nat) (a : list val) : list val :=
  match i with
  | 0 => a
  | S i' =>
      let j := scaled_floor (random calls) i in
      let ai := arr_read a (Z.of_nat i) in
      let aj := arr_read a j in
      shuffle_loop random (S calls) i' (arr_write (arr_write a (Z.of_nat i) aj) j ai)
  end.

Definition shuffle (random : nat → Q) (arr : list val) : list val :=
  shuffle_loop random 0 (length arr - 1) arr.

(** [xs.map((_, i) => i)] *)
Definition positions (xs : list val) : list val :=
  imap (fun i _ => VNum (num_of_nat i)) xs.

(** ** State

    The cells [rows] and [order] only ever receive arrays, and [index]
    only numbers: every call of their setters passes a shuffle, a mapped
    and filtered array, a number, or a parsed value that went through
    [Array.isArray] or [typeof]. *)

Record state := State {
  loading : bool;
  rows : list val;
  order : list val;
  index : number;
  revealed : bool;
  playing : bool;
  volume : number;
  videoLoading : bool
}.

Definition initial : state :=
  {| loading := true; rows := []; order := []; index := num_of_nat 0;
     revealed := false; playing := true; volume := Fin (Q2Qc (8 # 10));
     videoLoading := true |}.

(** A call of a state setter, queued until React renders again. *)
Inductive update :=
  | SetLoading (b : bool)
  | SetRows (l : list val)
  | SetOrder (l : list val)
  | SetIndex (f : number → number)
  | SetRevealed (b : bool)
  | SetPlaying (f : bool → bool)
  | SetVolume (x : number)
  | SetVideoLoading (b : bool).

(** The component and what surrounds it: the state cells as of the last
    render, the entry of [localStorage] under [STORAGE_KEY], the ref
    [restoredRef], the warnings on the console, the downloads that
    [Papa.parse] has in flight, the queued updates, and whether React
    has taken the component off the page because a render threw. *)
Record world := World {
  st : state;
  localStorage : option text;
  restoredRef : bool;
  console : list jsstring;
  requests : nat;
  queue : list update;
  unmounted : bool
}.

Definition setItem (t : text) (w : world) : world :=
  {| st := st w; localStorage := Some t; restoredRef := restoredRef w;
     console := console w; requests := requests w; queue := queue w;
     unmounted := unmounted w |}.

Definition set_restoredRef (b : bool) (w : world) : world :=
  {| st := st w; localStorage := localStorage w; restoredRef := b;
     console := console w; requests := requests w; queue := queue w;
     unmounted := unmounted w |}.

Definition console_warn (msg : jsstring) (w : world) : world :=
  {| st := st w; localStorage := localStorage w; restoredRef := restoredRef w;
     console := console w ++ [msg]; requests := requests w; queue := queue w;
     unmounted := unmounted w |}.

(** [Papa.parse(CSV_URL, {download: true, ...})] starts a download; its
    [complete] callback runs later, see [complete]. *)
Definition Papa_parse (w : world) : world :=
  {| st := st w; localStorage := localStorage w; restoredRef := restoredRef w;
     console := console w; requests := S (requests w); queue := queue w;
     unmounted := unmounted w |}.

Definition enqueue (u : update) (w : world) : world :=
  {| st := st w; localStorage := localStorage w; restoredRef := restoredRef w;
     console := console w; requests := requests w; queue := queue w ++ [u];
     unmounted := unmounted w |}.

(** The object literal [{ order, index, rows }]. *)
Definition snapshot (order index rows : val) : val :=
  VObj [(lit "order", order); (lit "index", index); (lit "rows", rows)].

Definition snapshot_of (s : state) : val :=
  snapshot (VArr (order s)) (VNum (index s)) (VArr (rows s)).

(** ** The restore effect *)

(** The condition of the [if] inside the [try]; [None] when evaluating it
    throws. *)
Definition restorable (parsed : val) : option bool :=
  if truthy parsed then
    r ← prop parsed (lit "rows");
    if Array_isArray r && (0 <? length (elements r)) then
      o ← prop parsed (lit "order");
      if Array_isArray o && (0 <? length (elements o)) then
        i ← prop parsed (lit "index");
        Some (typeof_number i)
      else Some false
    else Some false
  else Some false.

(** The body of the [if]: four setters and the write to storage. *)
Definition adopt (parsed : val) (w : world) : option world :=
  o ← prop parsed (lit "order");
  i ← prop parsed (lit "index");
  r ← prop parsed (lit "rows");
  Some (setItem (JSON_stringify (snapshot o i r))
          (enqueue (SetLoading false)
             (enqueue (SetRows (elements r))
                (enqueue (SetIndex (fun _ => number_of i))
                   (enqueue (SetOrder (elements o)) w))))).

(** The [try] block: [Some (Some w')] when it returns from the effect
    with [w'], [Some None] when it falls out of the [if], [None] when it
    throws. *)
Definition try_restore (saved : text) (w : world) : option (option world) :=
  parsed ← JSON_parse saved;
  ok ← restorable parsed;
  if ok : bool then w' ← adopt parsed w; Some (Some w') else Some None.

Definition restore_effect (w : world) : world :=
  if restoredRef w then w
  else
    let w := set_restoredRef true w in
    match localStorage w with
    | Some saved =>
        if text_truthy saved then
          match try_restore saved w with
          | Some (Some w') => w'
          | Some None => Papa_parse w
          | None => Papa_parse (console_warn (lit "failed to load session") w)
          end
        else Papa_parse w
    | None => Papa_parse w
    end.

(** ** The [complete] callback of [Papa.parse] *)

(** A row as the CSV parser delivers it with [header: true]: an object
    from column names to strings. *)
Abbreviation raw_row := (gmap jsstring jsstring).

(** [x || y] where [x] is a string or [undefined] and [y] a string. *)
Definition or_else (x : option jsstring) (y : jsstring) : jsstring :=
  match x with
  | Some (c :: s) => c :: s
  | _ => y
  end.

Definition raw_URL (r : raw_row) : jsstring :=
  or_else (r !! lit "URL") (or_else (r !! lit "Url") (or_else (r !! lit "url") [])).

(** The arrow function passed to [data.map]. *)
Definition map_row (i : nat) (r : raw_row) : val :=
  VObj [(lit "id", VStr (String_of_nat (i + 1)));
        (lit "Artist", VStr (or_else (r !! lit "Artist") (or_else (r !! lit "artist") [])));
        (lit "Title", VStr (or_else (r !! lit "Title") (or_else (r !! lit "title") [])));
        (lit "URL", VStr (strip_whitespace (raw_URL r)));
        (lit "Year", VStr (or_else (r !! lit "Year") (or_else (r !! lit "year") [])))].

(** The arrow function passed to [filter]: [r.URL], as a condition. *)
Definition has_URL (r : val) : bool :=
  from_option truthy false (prop r (lit "URL")).

Definition mapped (data : list raw_row) : list val :=
  List.filter has_URL (imap map_row data).

Definition complete (random : nat → Q) (data : list raw_row) (w : world) : world :=
  let rows' := mapped data in
  let w := enqueue (SetRows rows') w in
  let ord := shuffle random (positions rows') in
  let w := enqueue (SetOrder ord) w in
  let w := enqueue (SetIndex (fun _ => num_of_nat 0)) w in
  let w := enqueue (SetLoading false) w in
  setItem (JSON_stringify (snapshot (VArr ord) (VNum (num_of_nat 0)) (VArr rows'))) w.

(** ** The persist effect, with dependencies [order], [index], [rows] *)

Definition persist_effect (s : state) (w : world) : world :=
  setItem (JSON_stringify (snapshot_of s)) w.

(** ** [startNew] and [next]

    Both read [rows] and [order] from the render they were created in,
    which is [st w]: the queue is applied only by the next render. *)

Definition startNew (random : nat → Q) (w : world) : world :=
  if length (rows (st w)) =? 0 then w
  else
    let ord := shuffle random (positions (rows (st w))) in
    let w' := enqueue (SetOrder ord) w in
    let w' := enqueue (SetIndex (fun _ => num_of_nat 0)) w' in
    let w' := enqueue (SetRevealed false) w' in
    let w' := enqueue (SetVideoLoading true) w' in
    setItem (JSON_stringify
               (snapshot (VArr ord) (VNum (num_of_nat 0)) (VArr (rows (st w))))) w'.

Definition next (w : world) : world :=
  if length (order (st w)) =? 0 then w
  else
    let w' := enqueue (SetRevealed false) w in
    let w' := enqueue (SetVideoLoading true) w' in
    enqueue
      (SetIndex (fun prevIndex =>
         Math_min (num_add prevIndex 1)
           (Math_max (num_of_nat 0) (num_add (num_of_nat (length (order (st w)))) (-1)))))
      w'.

(** [const current = rows[order[index]]], and what [main] shows. *)
Definition current (s : state) : option val :=
  k ← get (VArr (order s)) (VNum (index s));
  get (VArr (rows s)) k.

Inductive view :=
  | LoadingCSV
  | NoMoreCards
  | Card (track : val).

Definition display (s : state) : option view :=
  c ← current s;
  Some (if loading s then LoadingCSV
        else if truthy c then Card c else NoMoreCards).

(** ** What [App] renders

    A render evaluates [current] and builds the elements of the page;
    React then goes through the children of each element.  [None] stands
    for a render that throws. *)

(** What React takes as a child of an element: text, numbers, booleans,
    [null], [undefined], and arrays of these; for an object that is not
    an element it throws ("Objects are not valid as a React child"), and
    a parsed value holds no element.  A function is warned about and
    left out. *)
Fixpoint valid_child (v : val) : bool :=
  match v with
  | VObj _ => false
  | VArr l => forallb valid_child l
  | _ => true
  end.

(** The button under the metadata. *)
Inductive button :=
  | RevealButton
  | NextButton.

(** The card: the spinner over the hidden player, what the player is
    given, the label of the play button, the metadata when revealed
    ([None] stands for "Info hidden"), and the one button of the
    actions.  What [ReactPlayer] does with its props is the library's
    and not part of the card. *)
Record card_view := CardView {
  card_spinner : bool;
  card_url : val;
  card_playing : bool;
  card_volume : number;
  card_play_label : jsstring;
  card_meta : option (val * val * val);
  card_action : button
}.

(** The card for the current track [c]; [None] when reading a property
    of [c] throws, or when React is handed an object as the text of the
    artist, the title or the year. *)
Definition render_card (s : state) (c : val) : option card_view :=
  u ← prop c (lit "URL");
  meta ← (if revealed s
          then a ← prop c (lit "Artist");
               t ← prop c (lit "Title");
               y ← prop c (lit "Year");
               if valid_child a && valid_child t && valid_child y
               then Some (Some (a, t, y)) else None
          else Some None);
  Some {| card_spinner := videoLoading s;
          card_url := u;
          card_playing := playing s;
          card_volume := volume s;
          card_play_label := if playing s then lit "Pause" else lit "Play";
          card_meta := meta;
          card_action := if revealed s then NextButton else RevealButton |}.

Inductive main_view :=
  | MainLoading
  | MainNoMoreCards
  | MainCard (c : card_view).

(** The content of [main]. *)
Definition render_main (s : state) : option main_view :=
  v ← display s;
  match v with
  | LoadingCSV => Some MainLoading
  | NoMoreCards => Some MainNoMoreCards
  | Card c => MainCard <$> render_card s c
  end.

(** Whether the render of [s] goes through: the header and the footer
    cannot throw, [main] can. *)
Definition renders (s : state) : bool :=
  match render_main s with Some _ => true | None => false end.

(** ** Rendering *)

Definition apply_update (s : state) (u : update) : state :=
  match u with
  | SetLoading b =>
      {| loading := b; rows := rows s; order := order s; index := index s;
         revealed := revealed s; playing := playing s; volume := volume s;
         videoLoading := videoLoading s |}
  | SetRows l =>
      {| loading := loading s; rows := l; order := order s; index := index s;
         revealed := revealed s; playing := playing s; volume := volume s;
         videoLoading := videoLoading s |}
  | SetOrder l =>
      {| loading := loading s; rows := rows s; order := l; index := index s;
         revealed := revealed s; playing := playing s; volume := volume s;
         videoLoading := videoLoading s |}
  | SetIndex f =>
      {| loading := loading s; rows := rows s; order := order s; index := f (index s);
         revealed := revealed s; playing := playing s; volume := volume s;
         videoLoading := videoLoading s |}
  | SetRevealed b =>
      {| loading := loading s; rows := rows s; order := order s; index := index s;
         revealed := b; playing := playing s; volume := volume s;
         videoLoading := videoLoading s |}
  | SetPlaying f =>
      {| loading := loading s; rows := rows s; order := order s; index := index s;
         revealed := revealed s; playing := f (playing s); volume := volume s;
         videoLoading := videoLoading s |}
  | SetVolume x =>
      {| loading := loading s; rows := rows s; order := order s; index := index s;
         revealed := revealed s; playing := playing s; volume := x;
         videoLoading := videoLoading s |}
  | SetVideoLoading b =>
      {| loading := loading s; rows := rows s; order := order s; index := index s;
         revealed := revealed s; playing := playing s; volume := volume s;
         videoLoading := b |}
  end.

#[global] Instance number_eq_dec : EqDecision number.
Proof. solve_decision. Defined.

(** Whether a dependency of the persist effect differs from the last
    render.  Arrays are compared by identity, and every array the
    component passes to [setRows] or [setOrder] is a new one; numbers are
    compared by value. *)
Definition fresh_array (u : update) : bool :=
  match u with
  | SetRows _ | SetOrder _ => true
  | _ => false
  end.

Definition deps_changed (q : list update) (s s' : state) : bool :=
  existsb fresh_array q || negb (bool_decide (index s = index s')).

(** React takes the component off the page: nothing is rendered and no
    effect runs from then on. *)
Definition unmount (w : world) : world :=
  {| st := st w; localStorage := localStorage w; restoredRef := restoredRef w;
     console := console w; requests := requests w; queue := queue w;
     unmounted := true |}.

(** The next render.  Without a queued update there is none.  Otherwise
    the queue is applied in order and the component is rendered with the
    new state; when that goes through, the persist effect runs again,
    with the new state, if a dependency changed; when the render throws,
    no effect runs and React unmounts the component, there being no
    error boundary.  Once unmounted the component is not rendered again:
    the cells still take what a handler queues, but nothing reads them
    any more. *)
Definition flush (w : world) : world :=
  match queue w with
  | [] => w
  | _ =>
      let s' := fold_left apply_update (queue w) (st w) in
      let w' := {| st := s'; localStorage := localStorage w;
                   restoredRef := restoredRef w; console := console w;
                   requests := requests w; queue := [];
                   unmounted := unmounted w |} in
      if unmounted w then w'
      else if renders s' then
             if deps_changed (queue w) (st w) s' then persist_effect s' w' else w'
           else unmount w'
  end.

(** Mounting: the first render, then both effects, in the order of their
    declaration, with the state of the first render; under StrictMode
    they run a second time before any queued update is applied.  A first
    render that throws leaves nothing mounted. *)
Definition mount (strict : bool) (w : world) : world :=
  let s := st w in
  if renders s then
    let w := persist_effect s (restore_effect w) in
    let w := if strict then persist_effect s (restore_effect w) else w in
    flush w
  else unmount w.

(** A page load with [saved] under [STORAGE_KEY]. *)
Definition boot (saved : option text) : world :=
  {| st := initial; localStorage := saved; restoredRef := false;
     console := []; requests := 0; queue := []; unmounted := false |}.

(** ** Events

    What can happen after mounting: a click on a button, a change of the
    volume slider, a callback of the player, the end of a download.
    Every handler may run in any state; the buttons the component shows
    allow fewer. *)

Inductive event :=
  | Click_startNew (random : nat → Q)
  | Click_next
  | Click_reveal
  | Click_play
  | Input_volume (x : number)
  | Player_loading (b : bool)
  | Papa_complete (random : nat → Q) (data : list raw_row).

(** The handler of an event.  [complete] runs for a download in flight,
    which it ends; without one there is nothing to run. *)
Definition handler (ev : event) (w : world) : world :=
  match ev with
  | Click_startNew random => startNew random w
  | Click_next => next w
  | Click_reveal => enqueue (SetRevealed true) w
  | Click_play => enqueue (SetPlaying negb) w
  | Input_volume x => enqueue (SetVolume x) w
  | Player_loading b => enqueue (SetVideoLoading b) w
  | Papa_complete random data =>
      match requests w with
      | 0 => w
      | S n =>
          complete random data
            {| st := st w; localStorage := localStorage w;
               restoredRef := restoredRef w; console := console w;
               requests := n; queue := queue w; unmounted := unmounted w |}
      end
  end.

(** One turn of the event loop: the handler, then the render. *)
Definition step (w : world) (ev : event) : world := flush (handler ev w).

Definition run (evs : list event) (w : world) : world := fold_left step evs w.

End Hitster.

(** * What the properties are stated with *)

Import Js Hitster.

(** ** Induction on values *)

Section val_induction.

Variable P : val → Prop.
Hypothesis Hundef : P VUndef.
Hypothesis Hnull : P VNull.
Hypothesis Hbool : ∀ b, P (VBool b).
Hypothesis Hnum : ∀ x, P (VNum x).
Hypothesis Hstr : ∀ s, P (VStr s).
Hypothesis Harr : ∀ l, Forall P l → P (VArr l).
Hypothesis Hobj : ∀ props, Forall (λ kv, P kv.2) props → P (VObj props).
Hypothesis Hbuiltin : ∀ name, P (VBuiltin name).

(** Induction on a value, through the elements of arrays and the
    properties of objects. *)
Fixpoint val_nested_ind (v : val) : P v :=
  match v with
  | VUndef => Hundef
  | VNull => Hnull
  | VBool b => Hbool b
  | VNum x => Hnum x
  | VStr s => Hstr s
  | VArr l =>
      Harr l ((fix go (l : list val) : Forall P l :=
                 match l with
                 | [] => @List.Forall_nil _ P
                 | x :: l' => @List.Forall_cons _ P x l' (val_nested_ind x) (go l')
                 end) l)
  | VObj props =>
      Hobj props
        ((fix go (ps : list (jsstring * val)) : Forall (λ kv, P kv.2) ps :=
            match ps with
            | [] => @List.Forall_nil _ (λ kv, P kv.2)
            | (k, x) :: ps' =>
                @List.Forall_cons _ (λ kv, P kv.2) (k, x) ps' (val_nested_ind x) (go ps')
            end) props)
  | VBuiltin name => Hbuiltin name
  end.

End val_induction.

(** ** The catalog *)

(** The first candidate that is present and not empty, else the empty
    string. *)
Fixpoint first_nonempty (candidates : list (option jsstring)) : jsstring :=
  match candidates with
  | [] => []
  | Some (c :: s) :: _ => c :: s
  | _ :: rest => first_nonempty rest
  end.

(** The URL of a raw row: the first non-empty of the three casings,
    without its whitespace. *)
Definition normalised_URL (r : raw_row) : jsstring :=
  strip_whitespace (first_nonempty [r !! lit "URL"; r !! lit "Url"; r !! lit "url"]).

(** ** Snapshots *)

(** A stored value is a valid snapshot when it parses, has a non-empty
    array [rows], a non-empty array [order] and a number [index]; the
    three are what a restore adopts. *)
Definition valid_snapshot (saved : option text) : option (list val * list val * number) :=
  match saved with
  | Some (Json (VObj props)) =>
      match own_property props (lit "rows"),
            own_property props (lit "order"),
            own_property props (lit "index") with
      | Some (VArr (r :: rs)), Some (VArr (o :: os)), Some (VNum i) =>
          Some (r :: rs, o :: os, i)
      | _, _, _ => None
      end
  | _ => None
  end.

(** The state after a restore: the three adopted cells, [loading]
    cleared, the rest as in the first render. *)
Definition restored (r o : list val) (i : number) : state :=
  {| loading := false; rows := r; order := o; index := i;
     revealed := revealed initial; playing := playing initial;
     volume := volume initial; videoLoading := videoLoading initial |}.

(** What the console holds after the restore effect. *)
Definition warned (saved : option text) : list jsstring :=
  match saved with
  | Some Garbage => [lit "failed to load session"]
  | _ => []
  end.

(** A value that JSON represents as it is: no [undefined], no built-in
    object and no infinity anywhere inside. *)
Fixpoint json_exact (v : val) : bool :=
  match v with
  | VUndef | VBuiltin _ => false
  | VNull | VBool _ | VStr _ => true
  | VNum (Fin _) => true
  | VNum _ => false
  | VArr l => forallb json_exact l
  | VObj props => forallb (λ kv, json_exact kv.2) props
  end.

(** ** Invariants of the session *)

(** Storage holds the serialisation of [{order, index, rows}] of the
    current state. *)
Definition persisted (w : world) : Prop :=
  localStorage w = Some (JSON_stringify (snapshot_of (st w))).

(** The index is a position of the play order, whenever there is one. *)
Definition cursor_ok (s : state) : Prop :=
  order s ≠ [] → ∃ n, index s = num_of_nat n ∧ n < length (order s).

(** The same, for what a restore would adopt. *)
Definition snapshot_cursor_ok (saved : option text) : Prop :=
  ∀ r o i, valid_snapshot saved = Some (r, o, i) →
           ∃ n, i = num_of_nat n ∧ n < length o.

(** ** A session of three tracks *)

(** [Math.random()] returning one half every time. *)
Definition half : nat → Q := fun _ => 1 # 2.

(** A track as [map_row] builds it. *)
Definition track (id artist title url year : string) : val :=
  VObj [(lit "id", VStr (lit id)); (lit "Artist", VStr (lit artist));
        (lit "Title", VStr (lit title)); (lit "URL", VStr (lit url));
        (lit "Year", VStr (lit year))].

Definition three_tracks_state : state :=
  {| loading := false;
     rows := [track "1" "Abba" "Waterloo" "https://x.com/a" "1974";
              track "2" "Beck" "Loser" "https://x.com/b" "1993";
              track "3" "Cher" "Believe" "https://x.com/c" "1998"];
     order := [VNum (num_of_nat 2); VNum (num_of_nat 0); VNum (num_of_nat 1)];
     index := num_of_nat 0;
     revealed := true; playing := true; volume := volume initial;
     videoLoading := false |}.

(** A session of three tracks at its first card, between two events. *)
Definition three_tracks : world :=
  {| st := three_tracks_state;
     localStorage := Some (JSON_stringify (snapshot_of three_tracks_state));
     restoredRef := true; console := []; requests := 0; queue := [];
     unmounted := false |}.

(** A stored session at its second card. *)
Definition stored_session : option text :=
  Some (Json (snapshot (VArr [VNum (num_of_nat 1); VNum (num_of_nat 0)])
               (VNum (num_of_nat 1))
               (VArr [VStr (lit "a"); VStr (lit "b")]))).

(** A stored session whose index is past the end of its play order. *)
Definition stored_past_end : option text :=
  Some (Json (snapshot (VArr [VNum (num_of_nat 0)]) (VNum (num_of_nat 7))
               (VArr [VNull]))).

(** A stored session whose play order holds an object with a [toString]
    of its own: [{"order":[{"toString":1}],"index":0,"rows":[null]}]. *)
Definition stored_unreadable : option text :=
  Some (Json (snapshot (VArr [VObj [(lit "toString", VNum (num_of_nat 1))]])
               (VNum (num_of_nat 0)) (VArr [VNull]))).

(** * The rest of what [App] renders *)

Module Screen.

(** The footer, "Session progress: a/b", as the pair of [a] and [b];
    the text '0/0' is the pair of two zeros. *)
Definition footer (s : state) : number * number :=
  if length (rows s) =? 0 then (num_of_nat 0, num_of_nat 0)
  else (Math_min (num_add (index s) 1) (num_of_nat (length (order s))),
        num_of_nat (length (order s))).

(** Whether a page that rendered [s] offers what an event needs: the
    header button is there whenever the render went through; the
    player, its controls and the Reveal or Next button are part of the
    card; a download ends on its own. *)
Definition offered (s : state) (ev : event) : bool :=
  match ev with
  | Click_startNew _ => renders s
  | Papa_complete _ _ => true
  | Click_reveal =>
      match render_main s with
      | Some (MainCard c) =>
          match card_action c with RevealButton => true | NextButton => false end
      | _ => false
      end
  | Click_next =>
      match render_main s with
      | Some (MainCard c) =>
          match card_action c with NextButton => true | RevealButton => false end
      | _ => false
      end
  | Click_play | Input_volume _ | Player_loading _ =>
      match render_main s with
      | Some (MainCard _) => true
      | _ => false
      end
  end.

End Screen.

(** * What the further properties are stated with *)

Import Screen.

(** The draws of an event are doubles in [[0, 1)], as [Math.random()]
    promises. *)
Definition in_contract (ev : event) : Prop :=
  match ev with
  | Click_startNew random | Papa_complete random _ => ∀ k, unit_double (random k)
  | _ => True
  end.

(** A session as the component itself builds it: the rows are a mapped
    catalog, the play order is a permutation of their positions and the
    index is a position of it. *)
Definition well_formed (s : state) : Prop :=
  (∃ data, rows s = mapped data) ∧
  order s ≡ₚ positions (rows s) ∧
  ∃ n, index s = num_of_nat n ∧ (rows s ≠ [] → n < length (rows s)).

(** The update an event of the presentation queues: reveal, play or
    pause, the volume slider, a callback of the player. *)
Definition presentation (ev : event) : option update :=
  match ev with
  | Click_reveal => Some (SetRevealed true)
  | Click_play => Some (SetPlaying negb)
  | Input_volume x => Some (SetVolume x)
  | Player_loading b => Some (SetVideoLoading b)
  | _ => None
  end.

(** Reloading the page: a new page load over what storage holds. *)
Definition reload (strict : bool) (w : world) : world :=
  mount strict (boot (localStorage w)).

(** * Properties *)

(** ** Numbers *)

Section numbers.

Lemma num_of_Z_stdpp z : Q2Qc (inject_Z z) = Qc_of_Z z.
Proof. apply Qc_is_canon. simpl. apply Qred_correct. Qed.

Lemma num_add_Z z c : num_add (num_of_Z z) c = num_of_Z (z + c).
Proof.
  unfold num_add, num_of_Z. f_equal.
  by rewrite !num_of_Z_stdpp, Z2Qc_inj_add.
Qed.

Lemma num_add_nat n : num_add (num_of_nat n) 1 = num_of_nat (n + 1).
Proof. unfold num_of_nat. rewrite num_add_Z. f_equal. lia. Qed.

Lemma num_pred_nat n : 0 < n → num_add (num_of_nat n) (-1) = num_of_nat (n - 1).
Proof. intros. unfold num_of_nat. rewrite num_add_Z. f_equal. lia. Qed.

Lemma num_leb_le x y : num_leb x y = true ↔ num_le x y.
Proof.
  destruct x, y; simpl; try (split; done); try (split; [done|]; by intros []).
  apply bool_decide_eq_true.
Qed.

Lemma num_le_Z a b : num_le (num_of_Z a) (num_of_Z b) ↔ (a ≤ b)%Z.
Proof. unfold num_of_Z; simpl. by rewrite !num_of_Z_stdpp, <-Z2Qc_inj_le. Qed.

Lemma num_le_nat a b : num_le (num_of_nat a) (num_of_nat b) ↔ a ≤ b.
Proof. unfold num_of_nat. rewrite num_le_Z. lia. Qed.

Lemma num_leb_nat a b : num_leb (num_of_nat a) (num_of_nat b) = bool_decide (a ≤ b).
Proof.
  apply eq_true_iff_eq. rewrite num_leb_le, num_le_nat.
  by rewrite bool_decide_eq_true.
Qed.

Lemma num_of_nat_inj a b : num_of_nat a = num_of_nat b → a = b.
Proof.
  intros H. apply Nat.le_antisymm; apply num_le_nat.
  - rewrite H. apply Qcle_refl.
  - rewrite <-H. apply Qcle_refl.
Qed.

Lemma Math_min_nat a b : Math_min (num_of_nat a) (num_of_nat b) = num_of_nat (a `min` b).
Proof.
  unfold Math_min. rewrite num_leb_nat. case_bool_decide; f_equal; lia.
Qed.

Lemma Math_max_nat a b : Math_max (num_of_nat a) (num_of_nat b) = num_of_nat (a `max` b).
Proof.
  unfold Math_max. rewrite num_leb_nat. case_bool_decide; f_equal; lia.
Qed.

Lemma num_index_nat n : num_index (num_of_nat n) = Some n.
Proof.
  unfold num_index, num_of_nat, num_of_Z. rewrite num_of_Z_stdpp. simpl.
  destruct (0 <=? Z.of_nat n)%Z eqn:E; [|apply Z.leb_gt in E; lia].
  simpl. f_equal. lia.
Qed.

(** A number denotes the index [n] only if it is the integer [n]. *)
Lemma num_index_Some x n : num_index x = Some n → x = num_of_nat n.
Proof.
  destruct x as [q| |]; simpl; try done.
  case_bool_decide as Hd; simpl; [|done].
  destruct (0 <=? Qnum q)%Z eqn:Hn; [|done]. intros [= <-].
  apply Z.leb_le in Hn. unfold num_of_nat, num_of_Z. f_equal.
  apply Qc_is_canon. simpl. rewrite Qred_correct, Z2Nat.id by done.
  destruct q as [[a b] ?]; simpl in *. by subst b.
Qed.

End numbers.

(** ** The shuffle *)

Section shuffle.

Local Open Scope Q_scope.

(** *** Doubles *)

Lemma pow2_pos (e : Z) : 0 < pow2 e.
Proof. by apply Qpower_0_lt. Qed.

Lemma pow2_add (a b : Z) : pow2 (a + b) == pow2 a * pow2 b.
Proof. by apply Qpower_plus. Qed.

Lemma pow2_mono (a b : Z) : (a ≤ b)%Z → pow2 a <= pow2 b.
Proof. intros H. by apply Qpower_le_compat_l. Qed.

Lemma pow2_nonneg (e : Z) : (0 ≤ e)%Z → pow2 e == inject_Z (2 ^ e).
Proof. intros H. unfold pow2. by rewrite Zpower_Qpower. Qed.

Lemma pow2_opp (e : Z) : pow2 (- e) * pow2 e == 1.
Proof.
  rewrite <-pow2_add. by replace (- e + e)%Z with 0%Z by lia.
Qed.

(** The binade of [x] starts at or below [x]. *)
Lemma binade_le (x : Q) : 0 < x → pow2 (binade x) <= x.
Proof.
  intros Hx. unfold binade.
  destruct (Qle_bool _ x) eqn:E; [by apply Qle_bool_iff|].
  destruct x as [p q]. cbn [Qnum Qden].
  assert (Hp : (0 < p)%Z) by (unfold Qlt in Hx; simpl in Hx; lia).
  destruct (Z.log2_spec p Hp) as [Hlo _].
  destruct (Z.log2_spec (Z.pos q) ltac:(lia)) as [_ Hhi].
  set (lp := Z.log2 p) in *. set (lq := Z.log2 (Z.pos q)) in *.
  assert (Hlp : (0 ≤ lp)%Z) by apply Z.log2_nonneg.
  assert (Hlq : (0 ≤ lq)%Z) by apply Z.log2_nonneg.
  replace (lp - lq - 1)%Z with (lp + - (lq + 1))%Z by lia.
  rewrite pow2_add.
  apply Qmult_le_r with (z := pow2 (lq + 1)); [apply pow2_pos|].
  rewrite <-Qmult_assoc, pow2_opp, Qmult_1_r.
  rewrite !pow2_nonneg by lia.
  unfold Qle, Qmult, inject_Z; simpl. rewrite Z.mul_1_r, Pos.mul_1_r.
  rewrite <-Z.add_1_r in Hhi. nia.
Qed.

Lemma inject_Z_pos (z : Z) : (0 < z)%Z → 0 < inject_Z z.
Proof. intros H. change (inject_Z 0 < inject_Z z). by rewrite <-Zlt_Qlt. Qed.

Lemma inject_Z_nonneg (z : Z) : (0 ≤ z)%Z → 0 <= inject_Z z.
Proof. intros H. change (inject_Z 0 <= inject_Z z). by rewrite <-Zle_Qle. Qed.

Lemma round_half_even_bounds (q : Q) :
  q - (1 # 2) <= inject_Z (round_half_even q) <= q + (1 # 2).
Proof.
  unfold round_half_even.
  pose proof (Qfloor_le q) as Hlo. pose proof (Qlt_floor q) as Hhi.
  rewrite inject_Z_plus in Hhi. change (inject_Z 1) with 1 in Hhi.
  set (f := Qfloor q) in *.
  destruct (q - inject_Z f ?= 1 # 2) eqn:E.
  - apply Qeq_alt in E.
    destruct (Z.even f); rewrite ?inject_Z_plus; change (inject_Z 1) with 1; lra.
  - apply Qlt_alt in E. lra.
  - apply Qgt_alt in E. rewrite inject_Z_plus. change (inject_Z 1) with 1. lra.
Qed.

(** An integer is its own nearest integer. *)
Lemma round_half_even_Z (q : Q) (k : Z) :
  q == inject_Z k → round_half_even q = k.
Proof.
  intros Hq. destruct (round_half_even_bounds q) as [Hlo Hhi].
  set (N := round_half_even q) in *.
  assert (H1 : inject_Z N < inject_Z (k + 1)).
  { rewrite inject_Z_plus. change (inject_Z 1) with 1. lra. }
  assert (H2 : inject_Z k < inject_Z (N + 1)).
  { rewrite inject_Z_plus. change (inject_Z 1) with 1. lra. }
  rewrite <-Zlt_Qlt in H1, H2. lia.
Qed.

Lemma unit_double_range (r : Q) : unit_double r → 0 <= r < 1.
Proof.
  intros (m & c & [Hm _] & [Hc _] & Hmc & ->).
  assert (Hp : (0 < 2 ^ c)%Z) by by apply Z.pow_pos_nonneg.
  assert (HP : 0 < inject_Z (2 ^ c)) by by apply inject_Z_pos.
  split.
  - apply Qle_shift_div_l; [done|]. rewrite Qmult_0_l. by apply inject_Z_nonneg.
  - apply Qlt_shift_div_r; [done|]. rewrite Qmult_1_l. by rewrite <-Zlt_Qlt.
Qed.

(** The largest double below 1 is [1 - 2^-53]. *)
Lemma unit_double_le (r : Q) : unit_double r → r <= 1 - (1 # 2 ^ 53).
Proof.
  intros (m & c & [Hm Hm'] & [Hc _] & Hmc & ->).
  assert (Hp : (0 < 2 ^ c)%Z) by by apply Z.pow_pos_nonneg.
  assert (HP : 0 < inject_Z (2 ^ c)) by by apply inject_Z_pos.
  apply Qle_shift_div_r; [done|].
  assert (H : (m * 2 ^ 53 ≤ (2 ^ 53 - 1) * 2 ^ c)%Z).
  { destruct (Z.le_gt_cases c 53) as [Hc'|Hc'].
    - pose proof (Z.pow_le_mono_r 2 c 53 ltac:(lia) Hc'). nia.
    - pose proof (Z.pow_le_mono_r 2 53 c ltac:(lia) ltac:(lia)). nia. }
  rewrite Zle_Qle, !inject_Z_mult in H.
  change (inject_Z (2 ^ 53 - 1)) with (9007199254740991 # 1) in H.
  change (inject_Z (2 ^ 53)) with (9007199254740992 # 1) in H.
  change (1 # 2 ^ 53) with (1 # 9007199254740992).
  lra.
Qed.

Lemma pow2_m52 : pow2 (-52) == 1 # 4503599627370496.
Proof. by vm_compute. Qed.

(** Rounding moves a positive number by half an [ulp] at most. *)
Lemma round_pos_bounds (x : Q) :
  0 < x → x - ulp x * (1 # 2) <= round_pos x <= x + ulp x * (1 # 2).
Proof.
  intros Hx. unfold round_pos. set (u := ulp x).
  assert (Hu : 0 < u) by apply pow2_pos.
  destruct (round_half_even_bounds (x / u)) as [Hlo Hhi].
  set (N := inject_Z (round_half_even (x / u))) in *.
  apply (Qmult_le_compat_r _ _ u) in Hlo, Hhi; [|lra..].
  assert (E1 : (x / u - (1 # 2)) * u == x - u * (1 # 2)) by (field; lra).
  assert (E2 : (x / u + (1 # 2)) * u == x + u * (1 # 2)) by (field; lra).
  lra.
Qed.

(** A multiple of the [ulp] is a double already. *)
Lemma round_pos_exact (x : Q) (k : Z) :
  x / ulp x == inject_Z k → round_pos x == x.
Proof.
  intros H. unfold round_pos. rewrite (round_half_even_Z _ _ H), <-H.
  field. pose proof (pow2_pos (Z.max (binade x) (-1022) - 52)). unfold ulp. lra.
Qed.

(** The product of a double below 1 and a positive integer rounds to a
    double below that integer. *)
Lemma round_pos_below (r : Q) (n : Z) :
  unit_double r → (1 ≤ n)%Z → 0 < r → round_pos (r * inject_Z n) < inject_Z n.
Proof.
  intros Hd Hn Hr.
  pose proof (unit_double_range r Hd) as [_ Hr1].
  pose proof (unit_double_le r Hd) as Hle.
  change (1 # 2 ^ 53) with (1 # 9007199254740992) in Hle.
  assert (Hn' : 1 <= inject_Z n) by (change 1 with (inject_Z 1); by rewrite <-Zle_Qle).
  set (n' := inject_Z n) in *. set (x := r * n').
  assert (Hx : 0 < x) by (apply Qmult_lt_0_compat; lra).
  assert (Hxn : x <= (1 - (1 # 9007199254740992)) * n').
  { apply Qmult_le_compat_r; lra. }
  destruct (Z.max_spec (binade x) (-1022)) as [[Hlt Hmax]|[Hge Hmax]].
  - (* below the normal range the product is exact *)
    destruct Hd as (m & c & [Hm _] & [Hc Hc'] & Hmc & Er).
    assert (Hp : 0 < inject_Z (2 ^ c)) by by apply inject_Z_pos, Z.pow_pos_nonneg.
    assert (Eu : ulp x == pow2 (-1074)) by (unfold ulp; by rewrite Hmax).
    assert (Hk : x / ulp x == inject_Z (m * n * 2 ^ (1074 - c))).
    { rewrite Eu. unfold x, n'. rewrite Er, !inject_Z_mult.
      assert (Ho : pow2 (-1074) * pow2 1074 == 1) by (by rewrite <-pow2_add).
      pose proof (pow2_pos (-1074)) as Hpos.
      rewrite (pow2_nonneg 1074) in Ho by lia.
      assert (E2 : (2 ^ 1074 = 2 ^ c * 2 ^ (1074 - c))%Z).
      { rewrite <-Z.pow_add_r by lia. f_equal. lia. }
      rewrite E2, inject_Z_mult in Ho.
      set (A := inject_Z (2 ^ c)) in *. set (B := inject_Z (2 ^ (1074 - c))) in *.
      set (U := pow2 (-1074)) in *.
      assert (E : inject_Z m / A * inject_Z n / U * (U * (A * B))
                  == inject_Z m * inject_Z n * B) by (field; lra).
      rewrite Ho, Qmult_1_r in E. exact E. }
    rewrite (round_pos_exact _ _ Hk). lra.
  - (* in the normal range half an ulp is less than what is missing to n *)
    destruct (round_pos_bounds x Hx) as [_ Hhi].
    pose proof (binade_le x Hx) as Hb.
    assert (Eu : ulp x == pow2 (binade x) * (1 # 4503599627370496)).
    { unfold ulp. rewrite Hmax.
      replace (binade x - 52)%Z with (binade x + -52)%Z by lia.
      by rewrite pow2_add, pow2_m52. }
    lra.
Qed.

Lemma to_double_pos (x : Q) : 0 < x → to_double x = round_pos x.
Proof. intros H. unfold to_double. apply Qgt_alt in H. by rewrite H. Qed.

Lemma to_double_0 (x : Q) : x == 0 → to_double x = 0.
Proof. intros H. unfold to_double. apply Qeq_alt in H. by rewrite H. Qed.

(** Where neighbouring doubles are at most 1 apart, every integer is a
    double, and rounding does not cross it. *)
Lemma integer_over_ulp (x : Q) (k : Z) :
  0 < x → x < inject_Z (2 ^ 53) →
  ∃ K : Z, inject_Z k == inject_Z K * ulp x.
Proof.
  intros Hx Hlt. pose proof (binade_le x Hx) as Hb.
  assert (He : (binade x < 53)%Z).
  { apply (Qpower_lt_compat_l_inv 2); [|done].
    change (pow2 (binade x) < pow2 53). rewrite (pow2_nonneg 53) by lia.
    eapply Qle_lt_trans; [exact Hb|exact Hlt]. }
  unfold ulp. set (e := (Z.max (binade x) (-1022) - 52)%Z).
  assert (Hneg : (e ≤ 0)%Z) by (unfold e; lia).
  exists (k * 2 ^ (- e))%Z. rewrite inject_Z_mult, <-pow2_nonneg by lia.
  rewrite <-Qmult_assoc, pow2_opp. ring.
Qed.

Lemma round_pos_ge_integer (x : Q) (k : Z) :
  0 < x → x < inject_Z (2 ^ 53) → inject_Z k <= x → inject_Z k <= round_pos x.
Proof.
  intros Hx Hlt Hk. destruct (integer_over_ulp x k Hx Hlt) as [K HK].
  unfold round_pos. set (u := ulp x) in *.
  assert (Hu : 0 < u) by apply pow2_pos.
  destruct (round_half_even_bounds (x / u)) as [Hlo _].
  set (N := round_half_even (x / u)) in *.
  assert (HKN : (K ≤ N)%Z).
  { assert (H : inject_Z K < inject_Z (N + 1)).
    { rewrite inject_Z_plus. change (inject_Z 1) with 1.
      assert (inject_Z K <= x / u); [|lra].
      apply Qle_shift_div_l; [done|]. by rewrite <-HK. }
    rewrite <-Zlt_Qlt in H. lia. }
  rewrite HK. apply Qmult_le_compat_r; [|lra]. by rewrite <-Zle_Qle.
Qed.


Lemma round_pos_nonneg (x : Q) : 0 < x → 0 <= round_pos x.
Proof.
  intros Hx. unfold round_pos. set (u := ulp x).
  assert (Hu : 0 < u) by apply pow2_pos.
  destruct (round_half_even_bounds (x / u)) as [Hlo _].
  set (N := round_half_even (x / u)) in *.
  assert (HN : (0 ≤ N)%Z).
  { assert (H : inject_Z 0 < inject_Z (N + 1)).
    { rewrite inject_Z_plus. change (inject_Z 1) with 1. change (inject_Z 0) with 0.
      assert (0 < x / u); [|lra]. apply Qlt_shift_div_l; [done|]. lra. }
    rewrite <-Zlt_Qlt in H. lia. }
  apply Qmult_le_0_compat; [by apply inject_Z_nonneg | lra].
Qed.

(** The index drawn lies in [[0, i]]: the rounded product stays below
    [i + 1]. *)
Lemma scaled_floor_range (r : Q) (i : nat) :
  unit_double r → (0 ≤ scaled_floor r i ≤ Z.of_nat i)%Z.
Proof.
  intros Hd. pose proof (unit_double_range r Hd) as [Hr0 Hr1].
  unfold scaled_floor. set (n := Z.of_nat (i + 1)).
  destruct (Qlt_le_dec 0 r) as [Hr|Hr].
  - assert (Hx : 0 < r * inject_Z n).
    { apply Qmult_lt_0_compat; [done|]. apply inject_Z_pos. lia. }
    rewrite to_double_pos by done. split.
    + rewrite <-(Qfloor_Z 0). apply Qfloor_resp_le. by apply round_pos_nonneg.
    + pose proof (round_pos_below r n Hd ltac:(lia) Hr) as Hlt.
      pose proof (Qle_lt_trans _ _ _ (Qfloor_le _) Hlt) as H.
      rewrite <-Zlt_Qlt in H. lia.
  - rewrite to_double_0; [change (Qfloor 0) with 0%Z; lia|].
    assert (r == 0) as -> by (by apply Qle_antisym). ring.
Qed.


Lemma pow2_m21 : pow2 (-21) == 1 # 2097152.
Proof. by vm_compute. Qed.

(** Below [2^32] neighbouring doubles are [2^-21] apart at most. *)
Lemma ulp_small (x : Q) : 0 < x → x < inject_Z (2 ^ 32) → ulp x <= 1 # 2097152.
Proof.
  intros Hx Hlt. pose proof (binade_le x Hx) as Hb.
  assert (He : (binade x < 32)%Z).
  { apply (Qpower_lt_compat_l_inv 2); [|done].
    change (pow2 (binade x) < pow2 32). rewrite (pow2_nonneg 32) by lia.
    eapply Qle_lt_trans; [exact Hb|exact Hlt]. }
  rewrite <-pow2_m21. apply pow2_mono. lia.
Qed.

(** Every index of [[0, i]] is drawn for some double, in an array of
    fewer than [2^32] elements. *)
Lemma scaled_floor_onto (i j : nat) :
  j ≤ i → (Z.of_nat i + 1 ≤ 2 ^ 32)%Z →
  ∃ r, unit_double r ∧ scaled_floor r i = Z.of_nat j.
Proof.
  intros Hj Hi. set (n := Z.of_nat (i + 1)). set (J := Z.of_nat j).
  set (m := ((J * 2 ^ 53 + n - 1) / n)%Z).
  assert (Hn : (1 ≤ n ≤ 2 ^ 32)%Z) by lia.
  assert (HJ : (0 ≤ J < n)%Z) by lia.
  assert (Hm1 : (n * m ≤ J * 2 ^ 53 + n - 1)%Z) by (apply Z.mul_div_le; lia).
  assert (Hm2 : (J * 2 ^ 53 + n - 1 < n * Z.succ m)%Z) by (apply Z.mul_succ_div_gt; lia).
  change (2 ^ 53)%Z with 9007199254740992%Z in *.
  change (2 ^ 32)%Z with 4294967296%Z in *.
  assert (Hm : (0 ≤ m < 9007199254740992)%Z) by nia.
  exists (inject_Z m / inject_Z (2 ^ 53)). split.
  { exists m, 53%Z. split_and!; try done; lia. }
  unfold scaled_floor. fold n.
  change (inject_Z (2 ^ 53)) with (9007199254740992 # 1).
  set (x := inject_Z m / (9007199254740992 # 1) * inject_Z n).
  assert (Ex : x == inject_Z n * inject_Z m * (1 # 9007199254740992)).
  { unfold x. field. }
  assert (Hlo : inject_Z J <= x).
  { rewrite Ex. assert (H : (J * 9007199254740992 ≤ n * m)%Z) by lia.
    rewrite Zle_Qle, !inject_Z_mult in H.
    change (inject_Z 9007199254740992) with (9007199254740992 # 1) in H. lra. }
  assert (Hhi : x <= inject_Z J + (1 # 2097152)).
  { rewrite Ex. assert (H : (n * m ≤ J * 9007199254740992 + 4294967296)%Z) by lia.
    rewrite Zle_Qle, inject_Z_plus, !inject_Z_mult in H.
    change (inject_Z 9007199254740992) with (9007199254740992 # 1) in H.
    change (inject_Z 4294967296) with (4294967296 # 1) in H. lra. }
  assert (HJ0 : 0 <= inject_Z J) by (apply inject_Z_nonneg; lia).
  assert (HJn : inject_Z J + 1 <= 4294967296 # 1).
  { assert (H : (J + 1 ≤ 4294967296)%Z) by lia.
    rewrite Zle_Qle, inject_Z_plus in H. exact H. }
  destruct (Qlt_le_dec 0 x) as [Hx|Hx].
  - rewrite to_double_pos by done.
    assert (Hx32 : x < inject_Z (2 ^ 32)).
    { change (inject_Z (2 ^ 32)) with (4294967296 # 1). lra. }
    assert (Hx53 : x < inject_Z (2 ^ 53)).
    { change (inject_Z (2 ^ 53)) with (9007199254740992 # 1). lra. }
    pose proof (round_pos_ge_integer x J Hx Hx53 Hlo) as Hge.
    destruct (round_pos_bounds x Hx) as [_ Hle].
    pose proof (ulp_small x Hx Hx32) as Hu.
    assert (Hlt : round_pos x < inject_Z (J + 1)).
    { rewrite inject_Z_plus. change (inject_Z 1) with 1. lra. }
    apply Qfloor_resp_le in Hge. rewrite Qfloor_Z in Hge.
    pose proof (Qle_lt_trans _ _ _ (Qfloor_le _) Hlt) as H.
    rewrite <-Zlt_Qlt in H. lia.
  - assert (E : x == 0) by lra.
    rewrite (to_double_0 _ E). change (Qfloor 0) with 0%Z.
    assert (H : inject_Z J <= inject_Z 0) by (change (inject_Z 0) with 0; lra).
    rewrite <-Zle_Qle in H. lia.
Qed.
Local Close Scope Q_scope.

Lemma arr_read_lookup (a : list val) (i : nat) (x : val) :
  a !! i = Some x → arr_read a (Z.of_nat i) = x.
Proof.
  intros H. unfold arr_read.
  rewrite (proj2 (Z.leb_le _ _)) by lia. by rewrite Nat2Z.id, H.
Qed.

Lemma arr_write_insert (a : list val) (i : nat) (v : val) :
  i < length a → arr_write a (Z.of_nat i) v = <[i:=v]> a.
Proof.
  intros H. unfold arr_write.
  rewrite (proj2 (Z.ltb_ge _ _)) by lia. rewrite Nat2Z.id.
  by rewrite (proj2 (Nat.ltb_lt _ _)).
Qed.

(** A write never shortens the array. *)
Lemma arr_write_length (a : list val) (j : Z) (v : val) :
  length a ≤ length (arr_write a j v).
Proof.
  unfold arr_write. destruct (j <? 0)%Z; [done|].
  destruct (Z.to_nat j <? length a).
  - by rewrite length_insert.
  - rewrite length_app. lia.
Qed.

(** The destructuring assignment [[a[i], a[j]] = [a[j], a[i]]] inside
    the array: the two elements change places. *)
Lemma swap_in_range (a : list val) (i j : nat) :
  i < length a → j ≤ i →
  ∃ x y, a !! i = Some x ∧ a !! j = Some y ∧
    arr_write (arr_write a (Z.of_nat i) (arr_read a (Z.of_nat j))) (Z.of_nat j)
      (arr_read a (Z.of_nat i))
    = <[j:=x]> (<[i:=y]> a).
Proof.
  intros Hi Hj.
  destruct (lookup_lt_is_Some_2 a i Hi) as [x Hx].
  destruct (lookup_lt_is_Some_2 a j ltac:(lia)) as [y Hy].
  exists x, y. split_and!; [done..|].
  rewrite (arr_read_lookup _ _ _ Hx), (arr_read_lookup _ _ _ Hy).
  rewrite (arr_write_insert a i) by done.
  rewrite arr_write_insert by (rewrite length_insert; lia). done.
Qed.

Section draws.

(** The results of [Math.random()], all doubles in [[0, 1)]. *)
Variable random : nat → Q.
Hypothesis random_unit : ∀ k, unit_double (random k).

Lemma shuffle_loop_length (i calls : nat) (a : list val) :
  length a ≤ length (shuffle_loop random calls i a).
Proof.
  revert calls a. induction i as [|i IH]; intros calls a; simpl; [done|].
  etrans; [|apply IH]. etrans; [|apply arr_write_length]. apply arr_write_length.
Qed.

Lemma shuffle_length_ge (arr : list val) :
  length arr ≤ length (shuffle random arr).
Proof. apply shuffle_loop_length. Qed.

Lemma shuffle_loop_Permutation (i calls : nat) (a : list val) :
  i < length a → shuffle_loop random calls i a ≡ₚ a.
Proof.
  revert calls a. induction i as [|i IH]; intros calls a Hi; simpl; [done|].
  destruct (scaled_floor_range (random calls) (S i) (random_unit calls)) as [Hlo Hhi].
  set (j := scaled_floor (random calls) (S i)) in *.
  assert (Hj : j = Z.of_nat (Z.to_nat j)) by lia.
  rewrite Hj.
  destruct (swap_in_range a (S i) (Z.to_nat j) Hi ltac:(lia)) as (x & y & Hx & Hy & ->).
  rewrite IH by (rewrite !length_insert; lia).
  by apply Permutation_insert_swap.
Qed.

Lemma shuffle_Permutation (arr : list val) : shuffle random arr ≡ₚ arr.
Proof.
  unfold shuffle. destruct arr as [|x arr]; [done|].
  apply shuffle_loop_Permutation. simpl; lia.
Qed.

End draws.

Lemma positions_seq (xs : list val) :
  positions xs = (λ i, VNum (num_of_nat i)) <$> seq 0 (length xs).
Proof. unfold positions. apply imap_seq_0. Qed.

Lemma positions_length (xs : list val) : length (positions xs) = length xs.
Proof. apply length_imap. Qed.


End shuffle.

(** ** Rendering *)

Section rendering.

Lemma flush_st (w : world) : st (flush w) = fold_left apply_update (queue w) (st w).
Proof.
  unfold flush. destruct (queue w) as [|u q]; [done|].
  destruct (unmounted w); [done|]. destruct (renders _); [|done].
  by destruct (deps_changed _ _ _).
Qed.

Lemma flush_queue (w : world) : queue (flush w) = [].
Proof.
  unfold flush. destruct (queue w) as [|u q] eqn:E; [done|].
  destruct (unmounted w); [done|]. destruct (renders _); [|done].
  by destruct (deps_changed _ _ _).
Qed.

(** Without a queued update there is no render. *)
Lemma flush_idle (w : world) : queue w = [] → flush w = w.
Proof. unfold flush. by intros ->. Qed.

Lemma deps_changed_idle (s : state) : deps_changed [] s s = false.
Proof. unfold deps_changed. cbn. by rewrite bool_decide_eq_true_2. Qed.

(** The persist effect runs after a render that went through and saw a
    dependency change; nothing else in a render writes to storage. *)
Lemma flush_localStorage (w : world) :
  localStorage (flush w) =
  if negb (unmounted w) && renders (st (flush w))
     && deps_changed (queue w) (st w) (st (flush w))
  then Some (JSON_stringify (snapshot_of (st (flush w))))
  else localStorage w.
Proof.
  rewrite flush_st. unfold flush. destruct (queue w) as [|u q].
  - cbn [fold_left]. rewrite deps_changed_idle. by rewrite andb_false_r.
  - destruct (unmounted w); [done|]. cbn [negb andb].
    destruct (renders _); [|done]. by destruct (deps_changed _ _ _).
Qed.

(** A render unmounts the component exactly when it throws. *)
Lemma flush_unmounted (w : world) :
  unmounted (flush w) =
  unmounted w || negb (bool_decide (queue w = [])) && negb (renders (st (flush w))).
Proof.
  rewrite flush_st. unfold flush. destruct (queue w) as [|u q].
  - by rewrite orb_false_r.
  - destruct (unmounted w); [done|]. cbn [orb negb andb bool_decide].
    rewrite bool_decide_eq_false_2 by done. cbn [negb andb].
    destruct (renders _); [|done]. by destruct (deps_changed _ _ _).
Qed.

(** Updates that pass no new array leave [rows] and [order] alone. *)
Lemma fold_no_fresh_array (q : list update) (s : state) :
  existsb fresh_array q = false →
  rows (fold_left apply_update q s) = rows s ∧
  order (fold_left apply_update q s) = order s.
Proof.
  revert s. induction q as [|u q IH]; intros s; simpl; [done|].
  intros [Hu Hq]%orb_false_iff. destruct (IH (apply_update s u) Hq) as [-> ->].
  by destruct u.
Qed.

Lemma step_queue (w : world) (ev : event) : queue (step w ev) = [].
Proof. apply flush_queue. Qed.

Lemma run_queue (evs : list event) (w : world) : queue w = [] → queue (run evs w) = [].
Proof.
  revert w. induction evs as [|ev evs IH]; intros w Hw; simpl; [done|].
  apply IH, step_queue.
Qed.

Lemma renders_initial : renders initial = true.
Proof. by vm_compute. Qed.

Lemma mount_queue (strict : bool) (saved : option text) :
  queue (mount strict (boot saved)) = [].
Proof.
  unfold mount. cbn [boot st]. rewrite renders_initial. apply flush_queue.
Qed.

End rendering.

(** ** Advance *)

Section advance.

(** The bound that [next] computes is the last position. *)
Lemma last_position (len : nat) :
  0 < len →
  Math_max (num_of_nat 0) (num_add (num_of_nat len) (-1)) = num_add (num_of_nat len) (-1).
Proof.
  intros H. rewrite num_pred_nat by done. by rewrite Math_max_nat.
Qed.

Lemma next_empty (w : world) : order (st w) = [] → next w = w.
Proof. unfold next. by intros ->. Qed.

Lemma step_next_st (w : world) :
  queue w = [] → order (st w) ≠ [] →
  st (step w Click_next) =
  apply_update
    (apply_update (apply_update (st w) (SetRevealed false)) (SetVideoLoading true))
    (SetIndex (fun prevIndex =>
       Math_min (num_add prevIndex 1) (num_add (num_of_nat (length (order (st w)))) (-1)))).
Proof.
  intros Hq Ho. unfold step. rewrite flush_st. cbn [handler]. unfold next.
  destruct (order (st w)) as [|o os] eqn:E; [done|].
  cbn -[num_add num_of_nat Math_min Math_max]. rewrite Hq.
  cbn -[num_add num_of_nat Math_min Math_max].
  rewrite last_position by lia. done.
Qed.

Lemma step_next_nat (w : world) (n : nat) :
  queue w = [] → index (st w) = num_of_nat n → n < length (order (st w)) →
  index (st (step w Click_next)) = num_of_nat ((n + 1) `min` (length (order (st w)) - 1)) ∧
  order (st (step w Click_next)) = order (st w).
Proof.
  intros Hq Hi Hn.
  rewrite step_next_st; [|done|by intros E; rewrite E in Hn; simpl in Hn; lia].
  cbn -[num_add num_of_nat Math_min Math_max].
  rewrite Hi, num_add_nat, num_pred_nat, Math_min_nat by lia. done.
Qed.

Lemma run_next_nat (k : nat) (w : world) (n : nat) :
  queue w = [] → index (st w) = num_of_nat n → n < length (order (st w)) →
  index (st (run (repeat Click_next k) w))
    = num_of_nat ((n + k) `min` (length (order (st w)) - 1)) ∧
  order (st (run (repeat Click_next k) w)) = order (st w).
Proof.
  revert w n. induction k as [|k IH]; intros w n Hq Hi Hn; simpl.
  - split; [|done]. rewrite Hi. f_equal. lia.
  - destruct (step_next_nat w n Hq Hi Hn) as [Hi' Ho'].
    destruct (IH (step w Click_next) _ (step_queue _ _) Hi') as [-> ->].
    + rewrite Ho'. lia.
    + rewrite Ho'. split; [f_equal; lia | done].
Qed.

End advance.

(** C2.  With a non-empty play order, [next] followed by the render sets
    the index to [Math.min(index + 1, order.length - 1)] and clears
    [revealed]; with an empty play order it changes nothing.  From a
    state whose index is a position [n] of the play order, [k] clicks
    lead to position [min (n + k) (length - 1)]: the index never
    decreases, never passes the last position, and stays put once it is
    there. *)
Theorem advance_clamped (w : world) :
  queue w = [] →
  let len := length (order (st w)) in
  (order (st w) ≠ [] →
     index (st (step w Click_next))
       = Math_min (num_add (index (st w)) 1) (num_add (num_of_nat len) (-1)) ∧
     revealed (st (step w Click_next)) = false) ∧
  (order (st w) = [] → step w Click_next = w) ∧
  (∀ n, index (st w) = num_of_nat n → n < len →
     ∀ k, let wk := run (repeat Click_next k) w in
       index (st wk) = num_of_nat ((n + k) `min` (len - 1)) ∧
       order (st wk) = order (st w) ∧
       num_le (index (st wk)) (index (st (step wk Click_next))) ∧
       num_le (index (st (step wk Click_next))) (num_of_nat (len - 1)) ∧
       (index (st wk) = num_of_nat (len - 1) →
        index (st (step wk Click_next)) = index (st wk))).
Proof.
  intros Hq len. split_and!.
  - intros Ho. by rewrite step_next_st.
  - intros Ho. unfold step. simpl. rewrite next_empty by done. by apply flush_idle.
  - intros n Hi Hn k wk.
    destruct (run_next_nat k w n Hq Hi Hn) as [Hk Hok]. fold wk in Hk, Hok. fold len in Hk.
    assert (Hqk : queue wk = []) by by apply run_queue.
    assert (Hnk : (n + k) `min` (len - 1) < length (order (st wk))).
    { rewrite Hok. fold len. lia. }
    destruct (step_next_nat wk _ Hqk Hk Hnk) as [Hs _].
    rewrite Hok in Hs. fold len in Hs.
    split_and!; [done..| | |].
    + rewrite Hk, Hs. apply num_le_nat. lia.
    + rewrite Hs. apply num_le_nat. lia.
    + intros Hlast. rewrite Hs, Hk. f_equal.
      rewrite Hk in Hlast. apply num_of_nat_inj in Hlast. lia.
Qed.

(** Three tracks: two clicks lead from card 0 to card 2, and a third
    click stays there. *)
Lemma advance_clamped_three_tracks :
  length (order (st three_tracks)) = 3 ∧
  index (st three_tracks) = num_of_nat 0 ∧
  index (st (run (repeat Click_next 2) three_tracks)) = num_of_nat 2 ∧
  index (st (step (run (repeat Click_next 2) three_tracks) Click_next)) = num_of_nat 2.
Proof.
  destruct (advance_clamped three_tracks eq_refl) as (_ & _ & H).
  destruct (H 0 eq_refl (Nat.lt_0_succ 2) 2) as (H1 & _ & _ & _ & H2).
  split_and!; [reflexivity | reflexivity | exact H1 | ].
  rewrite (H2 H1). exact H1.
Defined.

(** ** Starting a session and loading the catalog *)

Section sessions.

Lemma startNew_empty (random : nat → Q) (w : world) :
  rows (st w) = [] → startNew random w = w.
Proof. unfold startNew. by intros ->. Qed.

Lemma step_startNew_st (random : nat → Q) (w : world) :
  queue w = [] → rows (st w) ≠ [] →
  st (step w (Click_startNew random)) =
  {| loading := loading (st w); rows := rows (st w);
     order := shuffle random (positions (rows (st w)));
     index := num_of_nat 0; revealed := false; playing := playing (st w);
     volume := volume (st w); videoLoading := true |}.
Proof.
  intros Hq Hr. unfold step. rewrite flush_st. cbn [handler]. unfold startNew.
  destruct (rows (st w)) as [|r rs] eqn:E; [done|].
  cbn -[shuffle positions num_of_nat JSON_stringify]. rewrite Hq.
  cbn -[shuffle positions num_of_nat]. by rewrite E.
Qed.

Lemma step_complete_st (random : nat → Q) (data : list raw_row) (w : world) :
  queue w = [] → requests w ≠ 0 →
  st (step w (Papa_complete random data)) =
  {| loading := false; rows := mapped data;
     order := shuffle random (positions (mapped data));
     index := num_of_nat 0; revealed := revealed (st w); playing := playing (st w);
     volume := volume (st w); videoLoading := videoLoading (st w) |}.
Proof.
  intros Hq Hr. unfold step. rewrite flush_st. cbn [handler].
  destruct (requests w) as [|n]; [done|].
  cbn -[shuffle positions num_of_nat JSON_stringify mapped]. rewrite Hq. done.
Qed.


(** One half is a double. *)
Lemma half_unit_double (k : nat) : unit_double (half k).
Proof. exists 1%Z, 1%Z. split_and!; done. Qed.

End sessions.



(** C8.  With an empty catalog [startNew] changes nothing at all.  With
    a non-empty catalog it sets the index to 0, clears [revealed], keeps
    [rows] as they are and replaces [order] by a shuffle of the
    positions. *)
Theorem startNew_frame (random : nat → Q) (w : world) :
  queue w = [] →
  (rows (st w) = [] → step w (Click_startNew random) = w) ∧
  (rows (st w) ≠ [] →
     let w' := step w (Click_startNew random) in
     index (st w') = num_of_nat 0 ∧
     revealed (st w') = false ∧
     rows (st w') = rows (st w) ∧
     order (st w') = shuffle random (positions (rows (st w)))).
Proof.
  intros Hq. split.
  - intros Hr. unfold step. cbn [handler]. rewrite startNew_empty by done.
    by apply flush_idle.
  - intros Hr w'. unfold w'. by rewrite step_startNew_st.
Qed.

(** A new session over three tracks starts at card 0, hidden, with the
    same three tracks. *)
Lemma startNew_frame_three_tracks :
  let w' := step three_tracks (Click_startNew half) in
  index (st w') = num_of_nat 0 ∧
  revealed (st w') = false ∧
  rows (st w') = rows (st three_tracks) ∧
  order (st w') = shuffle half (positions (rows (st three_tracks))).
Proof.
  destruct (startNew_frame half three_tracks eq_refl) as (_ & H).
  apply H. discriminate.
Defined.

(** ** Mapping the rows of the catalog *)

Section catalog.

Lemma raw_URL_first_nonempty (r : raw_row) :
  raw_URL r = first_nonempty [r !! lit "URL"; r !! lit "Url"; r !! lit "url"].
Proof.
  unfold raw_URL, or_else, first_nonempty.
  by destruct (r !! lit "URL") as [[|??]|], (r !! lit "Url") as [[|??]|],
    (r !! lit "url") as [[|??]|].
Qed.

Lemma map_row_URL (i : nat) (r : raw_row) :
  prop (map_row i r) (lit "URL") = Some (VStr (normalised_URL r)).
Proof. unfold normalised_URL. by rewrite <-raw_URL_first_nonempty. Qed.

Lemma has_URL_map_row (i : nat) (r : raw_row) :
  has_URL (map_row i r) = negb (bool_decide (normalised_URL r = [])).
Proof. unfold has_URL. by rewrite map_row_URL. Qed.

Lemma strip_whitespace_elem (s : jsstring) (c : code_unit) :
  c ∈ strip_whitespace s ↔ c ∈ s ∧ is_whitespace c = false.
Proof.
  unfold strip_whitespace. rewrite !list_elem_of_In, filter_In.
  by rewrite negb_true_iff.
Qed.

Lemma filter_imap_length (f : nat → raw_row → val) (data : list raw_row) :
  (∀ i r, has_URL (f i r) = negb (bool_decide (normalised_URL r = []))) →
  length (List.filter has_URL (imap f data))
  = length (filter (λ r, normalised_URL r ≠ []) data).
Proof.
  revert f. induction data as [|r data IH]; intros f Hf; [done|].
  rewrite imap_cons, filter_cons. simpl. rewrite Hf.
  case_bool_decide as Hn; simpl.
  - rewrite decide_False by (by intros ?). apply IH. intros i r'. apply Hf.
  - rewrite decide_True by done. simpl. f_equal. apply IH. intros i r'. apply Hf.
Qed.

Lemma mapped_elem (data : list raw_row) (t : val) :
  t ∈ mapped data ↔
  ∃ i r, data !! i = Some r ∧ normalised_URL r ≠ [] ∧ t = map_row i r.
Proof.
  unfold mapped. rewrite list_elem_of_In, filter_In, <-list_elem_of_In.
  rewrite elem_of_lookup_imap. split.
  - intros [(i & r & -> & Hr) Hu]. exists i, r. split_and!; [done| |done].
    rewrite has_URL_map_row in Hu. apply negb_true_iff in Hu.
    by apply bool_decide_eq_false in Hu.
  - intros (i & r & Hr & Hn & ->). split; [by exists i, r|].
    rewrite has_URL_map_row. apply negb_true_iff. by apply bool_decide_eq_false.
Qed.

End catalog.

(** C5.  The URL of a mapped row is the first non-empty of [r.URL],
    [r.Url], [r.url] with every whitespace code unit taken out, as in
    [" https://x.com/y \n"] becoming ["https://x.com/y"]; a mapped row is
    kept exactly when that URL is not empty, so the catalog has as many
    rows as the input has rows with a non-empty normalised URL. *)
Theorem catalog_URL_normalised :
  (∀ i r, prop (map_row i r) (lit "URL") = Some (VStr (normalised_URL r))) ∧
  (∀ s c, c ∈ strip_whitespace s ↔ c ∈ s ∧ is_whitespace c = false) ∧
  (∀ i, prop (map_row i {[ lit "URL" := lit " https://x.com/y " ++ [10%N] ]})
          (lit "URL")
        = Some (VStr (lit "https://x.com/y"))) ∧
  (∀ data t, t ∈ mapped data ↔
     ∃ i r, data !! i = Some r ∧ normalised_URL r ≠ [] ∧ t = map_row i r) ∧
  (∀ data, length (mapped data) = length (filter (λ r, normalised_URL r ≠ []) data)) ∧
  (∀ random data w, queue w = [] → requests w ≠ 0 →
     rows (st (step w (Papa_complete random data))) = mapped data).
Proof.
  split_and!.
  - apply map_row_URL.
  - apply strip_whitespace_elem.
  - intros i. rewrite map_row_URL. by vm_compute.
  - apply mapped_elem.
  - intros data. apply filter_imap_length. apply has_URL_map_row.
  - intros random data w Hq Hr. by rewrite step_complete_st.
Qed.

(** Of four rows, one without a URL and one whose URL is all
    whitespace are dropped; the catalog keeps the other two. *)
Lemma catalog_URL_normalised_four_rows :
  let data : list raw_row :=
    [ {[ lit "URL" := lit " https://x.com/y " ++ [10%N] ]};
      {[ lit "Artist" := lit "Abba" ]};
      {[ lit "URL" := lit "  "; lit "url" := lit "https://x.com/z" ]};
      {[ lit "url" := lit "https://x.com/z" ]} ] in
  let w := step (mount false (boot None)) (Papa_complete half data) in
  length (rows (st w)) = 2 ∧
  List.map (λ t, prop t (lit "URL")) (rows (st w))
    = [Some (VStr (lit "https://x.com/y")); Some (VStr (lit "https://x.com/z"))] ∧
  List.map (λ t, prop t (lit "id")) (rows (st w))
    = [Some (VStr (lit "1")); Some (VStr (lit "4"))].
Proof.
  destruct catalog_URL_normalised as (_ & _ & _ & _ & _ & H).
  pose proof (H half
    [ {[ lit "URL" := lit " https://x.com/y " ++ [10%N] ]};
      {[ lit "Artist" := lit "Abba" ]};
      {[ lit "URL" := lit "  "; lit "url" := lit "https://x.com/z" ]};
      {[ lit "url" := lit "https://x.com/z" ]} ]
    (mount false (boot None)) eq_refl ltac:(vm_compute; discriminate)) as Hrows.
  cbv zeta. rewrite Hrows. by vm_compute.
Defined.

(** ** Restoring a session *)

Section restore.

(** The restore effect, case by case of the stored value. *)
Lemma restore_effect_cases (w : world) :
  restoredRef w = false →
  restore_effect w =
  match valid_snapshot (localStorage w) with
  | Some (r, o, i) =>
      setItem (JSON_stringify (snapshot (VArr o) (VNum i) (VArr r)))
        (enqueue (SetLoading false)
           (enqueue (SetRows r)
              (enqueue (SetIndex (fun _ => i))
                 (enqueue (SetOrder o) (set_restoredRef true w)))))
  | None =>
      match localStorage w with
      | Some Garbage =>
          Papa_parse (console_warn (lit "failed to load session") (set_restoredRef true w))
      | _ => Papa_parse (set_restoredRef true w)
      end
  end.
Proof.
  intros Href. unfold restore_effect. rewrite Href.
  cbn [localStorage set_restoredRef].
  destruct (localStorage w) as [[| |v]|]; [done..| |done].
  cbn [text_truthy try_restore JSON_parse mbind option_bind valid_snapshot].
  destruct v as [| |b|x|s|l|props|name]; try done.
  - by destruct b.
  - unfold restorable. cbn [truthy]. by destruct x as [q| |]; cbn; try case_bool_decide.
  - unfold restorable. cbn [truthy]. by case_bool_decide.
  - unfold restorable, adopt. cbn [truthy prop mbind option_bind].
    destruct (own_property props (lit "rows")) as [[| | | | |[|r rs]| |]|]; try done.
    cbn [default Array_isArray elements length Nat.ltb Nat.leb andb].
    destruct (own_property props (lit "order")) as [[| | | | |[|o os]| |]|]; try done.
    cbn [default Array_isArray elements length Nat.ltb Nat.leb andb].
    by destruct (own_property props (lit "index")) as [[| | |i| | | |]|].
Qed.

Lemma restore_effect_done (w : world) : restoredRef w = true → restore_effect w = w.
Proof. unfold restore_effect. by intros ->. Qed.

Lemma restore_effect_restoredRef (w : world) : restoredRef (restore_effect w) = true.
Proof.
  destruct (restoredRef w) eqn:Href; [by rewrite restore_effect_done|].
  rewrite restore_effect_cases by done.
  destruct (valid_snapshot (localStorage w)) as [[[r o] i]|]; [done|].
  by destruct (localStorage w) as [[| |?]|].
Qed.

Lemma restore_effect_idempotent (w : world) :
  restore_effect (restore_effect w) = restore_effect w.
Proof. apply restore_effect_done, restore_effect_restoredRef. Qed.

Lemma mount_strict (w : world) : mount true w = mount false w.
Proof.
  unfold mount. cbv zeta. destruct (renders (st w)); [|done].
  rewrite (restore_effect_done (persist_effect _ _)); [done|].
  apply restore_effect_restoredRef.
Qed.

(** The world after mounting on a page load.  A valid snapshot is
    adopted; the persist effect of the first render has put the empty
    session in storage by then, and the adopted one comes back with the
    persist effect of the second render, if that render goes through. *)
Lemma mount_boot (strict : bool) (saved : option text) :
  mount strict (boot saved) =
  match valid_snapshot saved with
  | Some (r, o, i) =>
      {| st := restored r o i;
         localStorage :=
           Some (JSON_stringify
                   (if renders (restored r o i)
                    then snapshot (VArr o) (VNum i) (VArr r)
                    else snapshot_of initial));
         restoredRef := true; console := []; requests := 0; queue := [];
         unmounted := negb (renders (restored r o i)) |}
  | None =>
      {| st := initial;
         localStorage := Some (JSON_stringify (snapshot_of initial));
         restoredRef := true; console := warned saved; requests := 1; queue := [];
         unmounted := false |}
  end.
Proof.
  destruct strict; [rewrite mount_strict|]; unfold mount; cbn [boot st];
    rewrite renders_initial, restore_effect_cases by done; cbn [boot localStorage];
    (destruct (valid_snapshot saved) as [[[r o] i]|];
     [|by destruct saved as [[| |?]|]]);
    unfold flush; cbn -[renders JSON_stringify];
    change (renders _) with (renders (restored r o i));
    by destruct (renders (restored r o i)).
Qed.

End restore.

(** C1.  On a page load the component adopts the stored snapshot, as
    [rows], [order] and [index], exactly when the stored value is a
    valid one: it parses and holds a non-empty array [rows], a non-empty
    array [order] and a number [index].  In every other case (nothing
    stored, an empty string, a text that does not parse, a failing
    condition) the state stays as first rendered and the download of the
    catalog is started; a text that does not parse leaves one warning on
    the console and nothing else. *)
Theorem restore_adopts_iff_valid (strict : bool) (saved : option text) :
  let w := mount strict (boot saved) in
  match valid_snapshot saved with
  | Some (r, o, i) =>
      rows (st w) = r ∧ order (st w) = o ∧ index (st w) = i ∧
      loading (st w) = false ∧ requests w = 0 ∧ console w = []
  | None =>
      st w = initial ∧ requests w = 1 ∧ console w = warned saved
  end ∧
  (requests w = 0 ↔ is_Some (valid_snapshot saved)) ∧
  (valid_snapshot saved = None ↔ requests w = 1) ∧
  (JSON_parse Garbage = None ∧
   console (mount strict (boot (Some Garbage))) = [lit "failed to load session"] ∧
   requests (mount strict (boot (Some Garbage))) = 1).
Proof.
  intros w. unfold w. rewrite !mount_boot.
  destruct (valid_snapshot saved) as [[[r o] i]|] eqn:E; cbn.
  - split_and!; first [done | by split; eauto].
  - split_and!; first [done | by split; [|intros []]].
Qed.

(** C9.  The restore effect sets [restoredRef] before anything else and
    returns at once when it finds it set: a second invocation changes
    nothing, so mounting under StrictMode, where both effects run twice,
    leaves the same state, storage, console and downloads as mounting
    once, and so does everything that follows. *)
Theorem restore_runs_once :
  (∀ w, restoredRef (restore_effect w) = true) ∧
  (∀ w, restoredRef w = true → restore_effect w = w) ∧
  (∀ w, restore_effect (restore_effect w) = restore_effect w) ∧
  (∀ w, mount true w = mount false w) ∧
  (∀ saved evs, run evs (mount true (boot saved)) = run evs (mount false (boot saved))).
Proof.
  split_and!.
  - apply restore_effect_restoredRef.
  - apply restore_effect_done.
  - apply restore_effect_idempotent.
  - apply mount_strict.
  - intros saved evs. by rewrite mount_strict.
Qed.

(** With a session in storage, the second run of the restore effect
    finds the flag set and leaves the world of the first run. *)
Lemma restore_runs_once_stored_session :
  let once := restore_effect (boot stored_session) in
  restoredRef once = true ∧
  restore_effect once = once ∧
  mount true (boot stored_session) = mount false (boot stored_session).
Proof.
  destruct restore_runs_once as (H1 & H2 & _ & H4 & _).
  split_and!.
  - exact (H1 (boot stored_session)).
  - exact (H2 (restore_effect (boot stored_session)) (H1 (boot stored_session))).
  - exact (H4 (boot stored_session)).
Defined.

(** ** Serialisation *)

Section serialisation.

Lemma serialised_exact (v : val) : json_exact v = true → serialised v = Some v.
Proof.
  induction v as [| | |[| |]| |l IH|props IH|] using val_nested_ind; try done.
  - cbn [json_exact serialised]. intros Hl. do 2 f_equal.
    induction IH as [|x l Hx _ IHl]; [done|].
    cbn [forallb] in Hl. apply andb_true_iff in Hl as [Hx' Hl'].
    cbn [List.map]. by rewrite (Hx Hx'), (IHl Hl').
  - cbn [json_exact serialised]. intros Hl. do 2 f_equal.
    induction IH as [|[k x] ps Hx _ IHps]; [done|].
    cbn [forallb] in Hl. apply andb_true_iff in Hl as [Hx' Hl'].
    cbn [snd] in Hx, Hx'. by rewrite (Hx Hx'), (IHps Hl').
Qed.

Lemma stringify_snapshot_exact (o i r : val) :
  json_exact o = true → json_exact i = true → json_exact r = true →
  JSON_stringify (snapshot o i r) = Json (snapshot o i r).
Proof.
  intros Ho Hi Hr. unfold JSON_stringify. rewrite serialised_exact; [done|].
  cbn. by rewrite Ho, Hi, Hr.
Qed.

End serialisation.

(** ** The current track and the render *)

Section current_track.

Lemma array_get_undefined (a : list val) : array_get a VUndef = Some VUndef.
Proof. by vm_compute. Qed.

(** A number converts to a key without more ado. *)
Lemma array_get_number (a : list val) (x : number) :
  array_get a (VNum x) =
  Some (match num_index x with
        | Some n => default VUndef (a !! n)
        | None => VUndef
        end).
Proof. done. Qed.

(** Reading [order[index]] never throws, [index] being a number; reading
    [rows] under what it gives throws exactly when that does not convert
    to a key. *)
Lemma current_key (s : state) :
  current s = array_get (rows s) (array_read (order s) (KNum (index s))).
Proof. done. Qed.

Lemma current_None (s : state) :
  current s = None ↔ to_key (array_read (order s) (KNum (index s))) = None.
Proof.
  rewrite current_key. unfold array_get. by destruct (to_key _).
Qed.

(** A number that is no position of the array reads as [undefined]. *)
Lemma array_get_outside (a : list val) (x : number) :
  (∀ n, num_index x = Some n → length a ≤ n) → array_get a (VNum x) = Some VUndef.
Proof.
  intros H. rewrite array_get_number. destruct (num_index x) as [n|]; [|done].
  by rewrite lookup_ge_None_2 by (by apply H).
Qed.

Lemma array_read_outside (a : list val) (x : number) :
  (∀ n, num_index x = Some n → length a ≤ n) → array_read a (KNum x) = VUndef.
Proof.
  intros H. cbn. destruct (num_index x) as [n|]; [|done].
  by rewrite lookup_ge_None_2 by (by apply H).
Qed.

(** With an empty play order nothing is current. *)
Lemma current_without_order (s : state) : order s = [] → current s = Some VUndef.
Proof.
  intros Ho. rewrite current_key, Ho.
  rewrite (array_read_outside [] (index s)) by (intros; simpl; lia).
  apply array_get_undefined.
Qed.

(** An object with a [toString] of its own does not convert to a key. *)
Lemma to_key_toString (props : list (jsstring * val)) :
  is_Some (own_property props (lit "toString")) → to_key (VObj props) = None.
Proof. intros [v Hv]. cbn [to_key]. by rewrite Hv. Qed.

Lemma display_card (s : state) (t : val) :
  display s = Some (Card t) ↔ current s = Some t ∧ truthy t = true ∧ loading s = false.
Proof.
  unfold display. destruct (current s) as [c|]; cbn; [|by split; [|intros []]].
  destruct (loading s); [by split; [|intros (? & ? & ?)]|].
  destruct (truthy c) eqn:E; split.
  - by intros [= <-].
  - by intros ([= <-] & _ & _).
  - done.
  - intros ([= <-] & ? & _). congruence.
Qed.

Lemma display_card_order (s : state) (t : val) :
  display s = Some (Card t) → order s ≠ [].
Proof.
  intros (Hc & Ht & _)%display_card Ho.
  rewrite (current_without_order s Ho) in Hc. by injection Hc as <-.
Qed.

Lemma display_None (s : state) : display s = None ↔ current s = None.
Proof. unfold display. by destruct (current s). Qed.

(** Reading a property of a truthy value does not throw. *)
Lemma prop_truthy (c : val) (name : jsstring) : truthy c = true → is_Some (prop c name).
Proof. destruct c; cbn; by eauto. Qed.

(** The card with the metadata hidden hands React no value of the
    track but the URL of the player. *)
Lemma render_card_hidden (s : state) (c : val) :
  truthy c = true → revealed s = false →
  ∃ cv, render_card s c = Some cv ∧ card_action cv = RevealButton ∧ card_meta cv = None.
Proof.
  intros Ht Hr. unfold render_card. rewrite Hr.
  destruct (prop_truthy c (lit "URL") Ht) as [u ->]. cbn. by eexists.
Qed.

(** What a card that rendered shows. *)
Lemma render_card_Some (s : state) (c : val) (cv : card_view) :
  render_card s c = Some cv →
  card_action cv = (if revealed s then NextButton else RevealButton) ∧
  (card_meta cv = None ↔ revealed s = false) ∧
  card_spinner cv = videoLoading s ∧ card_playing cv = playing s.
Proof.
  unfold render_card. destruct (prop c (lit "URL")) as [u|]; [|done].
  cbn [mbind option_bind]. destruct (revealed s).
  - destruct (prop c (lit "Artist")) as [a|]; [|done].
    destruct (prop c (lit "Title")) as [t|]; [|done].
    destruct (prop c (lit "Year")) as [y|]; [|done].
    cbn [mbind option_bind]. destruct (_ && _); [|done].
    cbn. by intros [= <-].
  - cbn. by intros [= <-].
Qed.

(** What [main] renders, case by case of what [display] says. *)
Lemma render_main_cases (s : state) :
  match render_main s with
  | Some MainLoading => display s = Some LoadingCSV
  | Some MainNoMoreCards => display s = Some NoMoreCards
  | Some (MainCard cv) => ∃ t, display s = Some (Card t) ∧ render_card s t = Some cv
  | None => display s = None ∨
            ∃ t, display s = Some (Card t) ∧ render_card s t = None
  end.
Proof.
  unfold render_main. destruct (display s) as [[| |t]|]; cbn [mbind option_bind];
    [done..| |by left].
  destruct (render_card s t) as [cv|] eqn:E; cbn; [by exists t|].
  right. by exists t.
Qed.

(** With the metadata hidden, a render throws only in reading the
    current track. *)
Lemma renders_hidden (s : state) :
  revealed s = false → renders s = true ↔ is_Some (current s).
Proof.
  intros Hr. unfold renders. pose proof (render_main_cases s) as H.
  destruct (render_main s) as [v|].
  - split; [intros _|done].
    destruct (current s) eqn:E; [done|].
    apply display_None in E. destruct v as [| |cv]; [congruence..|].
    destruct H as (t & Hd & _). congruence.
  - split; [done|]. intros [c Hc]. destruct H as [H|(t & Hd & Hcv)].
    + apply display_None in H. congruence.
    + apply display_card in Hd as (_ & Ht & _).
      destruct (render_card_hidden s t Ht Hr) as (cv & Hcv' & _). congruence.
Qed.

Lemma renders_restored (r o : list val) (i : number) :
  renders (restored r o i) = true ↔ is_Some (current (restored r o i)).
Proof. by apply renders_hidden. Qed.

Lemma renders_restored_false (r o : list val) (i : number) :
  renders (restored r o i) = false ↔ current (restored r o i) = None.
Proof.
  rewrite <-not_true_iff_false, renders_restored.
  destruct (current (restored r o i)) as [c|]; split; try done.
  intros H. destruct H. by eexists.
Qed.

End current_track.

(** C6, as the code has it.  A restore that adopts a snapshot writes
    [{order, index, rows}] back under the same key on the spot; when the
    snapshot holds no infinity (nor anything else JSON cannot write),
    what is read from storage right after the effect is a valid snapshot
    with the same order, index and rows.  The persist effect of the
    first render has meanwhile put the empty session there; the restored
    one is back after mounting when the render of the restored state
    goes through, which it does exactly when [rows[order[index]]] can be
    read.  When that read throws, React unmounts the component and
    storage keeps the empty session. *)
Theorem restore_round_trip (strict : bool) (saved : option text)
    (r o : list val) (i : number) :
  valid_snapshot saved = Some (r, o, i) →
  json_exact (VArr r) = true →
  json_exact (VArr o) = true →
  json_exact (VNum i) = true →
  localStorage (restore_effect (boot saved))
    = Some (Json (snapshot (VArr o) (VNum i) (VArr r))) ∧
  valid_snapshot (localStorage (restore_effect (boot saved))) = Some (r, o, i) ∧
  (is_Some (current (restored r o i)) →
     unmounted (mount strict (boot saved)) = false ∧
     localStorage (mount strict (boot saved))
       = Some (Json (snapshot (VArr o) (VNum i) (VArr r))) ∧
     valid_snapshot (localStorage (mount strict (boot saved))) = Some (r, o, i)) ∧
  (current (restored r o i) = None →
     unmounted (mount strict (boot saved)) = true ∧
     localStorage (mount strict (boot saved)) = Some (Json (snapshot_of initial)) ∧
     valid_snapshot (localStorage (mount strict (boot saved))) = None).
Proof.
  intros Hv Hr Ho Hi.
  assert (Hne : ∃ r0 rs o0 os, r = r0 :: rs ∧ o = o0 :: os).
  { unfold valid_snapshot in Hv. repeat case_match; simplify_eq.
    by eexists _, _, _, _. }
  destruct Hne as (r0 & rs & o0 & os & -> & ->).
  rewrite restore_effect_cases, mount_boot by done. cbn [boot localStorage].
  rewrite Hv. cbn [localStorage setItem unmounted].
  rewrite stringify_snapshot_exact by done. split_and!; [done..| |].
  - intros Hc%renders_restored. rewrite Hc.
    by rewrite stringify_snapshot_exact by done.
  - intros Hc%renders_restored_false. by rewrite Hc.
Qed.

(** A stored session of two tracks comes back from storage as it was. *)
Lemma restore_round_trip_stored_session :
  valid_snapshot stored_session
    = Some ([VStr (lit "a"); VStr (lit "b")],
            [VNum (num_of_nat 1); VNum (num_of_nat 0)], num_of_nat 1) ∧
  localStorage (restore_effect (boot stored_session)) = stored_session ∧
  localStorage (mount true (boot stored_session)) = stored_session ∧
  valid_snapshot (localStorage (mount true (boot stored_session)))
    = valid_snapshot stored_session.
Proof.
  destruct (restore_round_trip true stored_session
              [VStr (lit "a"); VStr (lit "b")]
              [VNum (num_of_nat 1); VNum (num_of_nat 0)] (num_of_nat 1)
              eq_refl eq_refl eq_refl eq_refl) as (H1 & _ & H & _).
  destruct (H (ex_intro _ (VStr (lit "a")) eq_refl)) as (_ & H3 & H4).
  split_and!; [reflexivity | exact H1 | exact H3 | exact H4].
Defined.

(** C6 as stated fails on a snapshot whose index parsed to an infinity
    (the text [1e999]): the snapshot is valid and adopted, the write
    puts [null] in its place, and what storage then holds is no valid
    snapshot. *)
Lemma restore_round_trip_infinity :
  let saved := Some (Json (snapshot (VArr [VNum (num_of_nat 0)]) (VNum PosInf)
                             (VArr [VNull]))) in
  valid_snapshot saved = Some ([VNull], [VNum (num_of_nat 0)], PosInf) ∧
  index (st (mount false (boot saved))) = PosInf ∧
  localStorage (restore_effect (boot saved))
    = Some (Json (snapshot (VArr [VNum (num_of_nat 0)]) VNull (VArr [VNull]))) ∧
  localStorage (mount false (boot saved))
    = Some (Json (snapshot (VArr [VNum (num_of_nat 0)]) VNull (VArr [VNull]))) ∧
  valid_snapshot (localStorage (mount false (boot saved))) = None.
Proof. by vm_compute. Qed.

(** ** Events one by one *)

Section events.

(** A render whose queue holds no new array and leaves the index as it
    is does not run the persist effect. *)
Lemma flush_quiet (w : world) :
  queue w ≠ [] →
  existsb fresh_array (queue w) = false →
  index (fold_left apply_update (queue w) (st w)) = index (st w) →
  flush w =
  {| st := fold_left apply_update (queue w) (st w);
     localStorage := localStorage w; restoredRef := restoredRef w;
     console := console w; requests := requests w; queue := [];
     unmounted := unmounted w
                  || negb (renders (fold_left apply_update (queue w) (st w))) |}.
Proof.
  intros Hq Hf Hi. unfold flush, deps_changed. rewrite Hf, Hi.
  rewrite bool_decide_eq_true_2 by done.
  destruct (queue w) as [|u q]; [done|].
  destruct (unmounted w); [done|]. by destruct (renders _).
Qed.

Lemma step_presentation (w : world) (ev : event) (u : update) :
  queue w = [] → presentation ev = Some u →
  step w ev =
  {| st := apply_update (st w) u;
     localStorage := localStorage w; restoredRef := restoredRef w;
     console := console w; requests := requests w; queue := [];
     unmounted := unmounted w || negb (renders (apply_update (st w) u)) |}.
Proof.
  intros Hq Hu. unfold step.
  destruct ev; simplify_eq/=; (rewrite flush_quiet; cbn; rewrite Hq; done).
Qed.

Lemma handler_requests (ev : event) (w : world) : requests (handler ev w) ≤ requests w.
Proof.
  destruct ev; cbn; try done.
  - unfold startNew. by destruct (_ =? _).
  - unfold next. by destruct (_ =? _).
  - destruct (requests w) eqn:E; [by rewrite E|]. cbn. lia.
Qed.

Lemma flush_requests (w : world) : requests (flush w) = requests w.
Proof.
  unfold flush. destruct (queue w) as [|u q]; [done|].
  destruct (unmounted w); [done|]. destruct (renders _); [|done].
  by destruct (deps_changed _ _ _).
Qed.

Lemma flush_console (w : world) : console (flush w) = console w.
Proof.
  unfold flush. destruct (queue w) as [|u q]; [done|].
  destruct (unmounted w); [done|]. destruct (renders _); [|done].
  by destruct (deps_changed _ _ _).
Qed.

Lemma step_requests (w : world) (ev : event) : requests (step w ev) ≤ requests w.
Proof. unfold step. rewrite flush_requests. apply handler_requests. Qed.

Lemma run_requests (evs : list event) (w : world) : requests (run evs w) ≤ requests w.
Proof.
  revert w. induction evs as [|ev evs IH]; intros w; [done|].
  cbn [run fold_left]. etrans; [apply IH | apply step_requests].
Qed.

(** The advance leaves [rows] and [order] alone. *)
Lemma step_next_frame (w : world) :
  queue w = [] →
  rows (st (step w Click_next)) = rows (st w) ∧
  order (st (step w Click_next)) = order (st w).
Proof.
  intros Hq. destruct (order (st w)) as [|o os] eqn:E.
  - unfold step. cbn [handler]. rewrite next_empty by done.
    rewrite flush_idle by done. by rewrite E.
  - rewrite step_next_st by (by rewrite ?E). by rewrite E.
Qed.

(** Without a download in flight no event changes the catalog. *)
Lemma step_rows_fixed (w : world) (ev : event) :
  queue w = [] → requests w = 0 → rows (st (step w ev)) = rows (st w).
Proof.
  intros Hq Hr. destruct ev as [random| | | | | |random data].
  - destruct (rows (st w)) as [|r rs] eqn:E.
    + unfold step. cbn [handler]. rewrite startNew_empty by done.
      by rewrite flush_idle.
    + rewrite step_startNew_st by (by rewrite ?E). done.
  - by apply step_next_frame.
  - erewrite step_presentation; [|done|reflexivity]. done.
  - erewrite step_presentation; [|done|reflexivity]. done.
  - erewrite step_presentation; [|done|reflexivity]. done.
  - erewrite step_presentation; [|done|reflexivity]. done.
  - unfold step. cbn [handler]. rewrite Hr. by rewrite flush_idle.
Qed.

Lemma run_rows_fixed (evs : list event) (w : world) :
  queue w = [] → requests w = 0 → rows (st (run evs w)) = rows (st w).
Proof.
  revert w. induction evs as [|ev evs IH]; intros w Hq Hr; [done|].
  cbn [run fold_left]. rewrite IH.
  - by apply step_rows_fixed.
  - apply step_queue.
  - pose proof (step_requests w ev). lia.
Qed.

End events.

(** ** Sessions the component builds *)

Section well_formed_sessions.

Lemma mapped_rows (data : list raw_row) :
  Forall (λ t, ∃ i r, t = map_row i r) (mapped data).
Proof.
  apply Forall_forall. intros t Ht. apply mapped_elem in Ht as (i & r & _ & _ & ->).
  by exists i, r.
Qed.

Lemma map_row_exact (i : nat) (r : raw_row) : json_exact (map_row i r) = true.
Proof. done. Qed.

Lemma json_exact_array (l : list val) :
  json_exact (VArr l) = true ↔ Forall (λ x, json_exact x = true) l.
Proof.
  cbn [json_exact]. rewrite forallb_forall, Forall_forall.
  by setoid_rewrite list_elem_of_In.
Qed.

Lemma positions_exact (xs : list val) : json_exact (VArr (positions xs)) = true.
Proof.
  apply json_exact_array. rewrite positions_seq. apply Forall_fmap, Forall_forall.
  by intros i _.
Qed.

(** What a well-formed session holds can be written to JSON as it is. *)
Lemma well_formed_exact (s : state) :
  well_formed s →
  json_exact (VArr (rows s)) = true ∧
  json_exact (VArr (order s)) = true ∧
  json_exact (VNum (index s)) = true.
Proof.
  intros ([data Hd] & Ho & n & Hi & _). split_and!.
  - apply json_exact_array. rewrite Hd.
    eapply Forall_impl; [apply mapped_rows|]. intros t (i & r & ->). apply map_row_exact.
  - apply json_exact_array. rewrite Ho. apply json_exact_array, positions_exact.
  - by rewrite Hi.
Qed.

Lemma well_formed_lengths (s : state) :
  well_formed s → length (order s) = length (rows s).
Proof. intros (_ & Ho & _). by rewrite Ho, positions_length. Qed.

(** The entry of the play order under the cursor names a row. *)
Lemma well_formed_current (s : state) :
  well_formed s → rows s ≠ [] →
  ∃ n m t, index s = num_of_nat n ∧ order s !! n = Some (VNum (num_of_nat m)) ∧
           rows s !! m = Some t ∧ current s = Some t ∧ truthy t = true.
Proof.
  intros Hwf Hne. pose proof (well_formed_lengths s Hwf) as Hlen.
  destruct Hwf as ([data Hd] & Ho & n & Hi & Hn). specialize (Hn Hne).
  destruct (lookup_lt_is_Some_2 (order s) n ltac:(lia)) as [x Hx].
  assert (Hin : x ∈ positions (rows s)).
  { rewrite <-Ho. by eapply list_elem_of_lookup_2. }
  rewrite positions_seq in Hin. apply list_elem_of_fmap in Hin as (m & -> & Hm).
  apply elem_of_seq in Hm.
  destruct (lookup_lt_is_Some_2 (rows s) m ltac:(lia)) as [t Ht].
  exists n, m, t. split_and!; [done..| |].
  - rewrite current_key, Hi. cbn [array_read]. rewrite num_index_nat, Hx.
    cbn [default from_option id]. by rewrite array_get_number, num_index_nat, Ht.
  - assert (Hin : t ∈ mapped data) by (rewrite <-Hd; by eapply list_elem_of_lookup_2).
    by apply mapped_elem in Hin as (i & r & _ & _ & ->).
Qed.

(** The card of a mapped row renders, revealed or not: its fields are
    strings. *)
Lemma render_card_map_row (s : state) (i : nat) (r : raw_row) :
  is_Some (render_card s (map_row i r)).
Proof. unfold render_card, map_row. cbn. by destruct (revealed s). Qed.

(** A session the component built renders. *)
Lemma well_formed_renders (s : state) : well_formed s → renders s = true.
Proof.
  intros Hwf. unfold renders, render_main, display.
  destruct (rows s) as [|r0 rs] eqn:E.
  - assert (Ho : order s = []).
    { apply length_zero_iff_nil. by rewrite (well_formed_lengths _ Hwf), E. }
    rewrite (current_without_order s Ho). cbn. by destruct (loading s).
  - destruct (well_formed_current s Hwf) as (n & m & t & _ & _ & Ht & -> & Htr);
      [by rewrite E|].
    cbn [mbind option_bind]. rewrite Htr. destruct (loading s); [done|].
    destruct Hwf as ([data Hd] & _).
    assert (Hin : t ∈ mapped data).
    { rewrite <-Hd. by eapply list_elem_of_lookup_2. }
    apply mapped_elem in Hin as (i & r & _ & _ & ->).
    by destruct (render_card_map_row s i r) as [cv ->].
Qed.

Lemma initial_well_formed : well_formed initial.
Proof.
  split_and!; [by exists [] | done | exists 0; by split].
Qed.

Lemma step_well_formed (w : world) (ev : event) :
  queue w = [] → in_contract ev → well_formed (st w) → well_formed (st (step w ev)).
Proof.
  intros Hq Hc Hwf. destruct ev as [random| | | | | |random data].
  - destruct (rows (st w)) as [|r rs] eqn:E.
    + unfold step. cbn [handler]. rewrite startNew_empty by done.
      by rewrite flush_idle.
    + rewrite step_startNew_st by (by rewrite ?E).
      destruct Hwf as (Hd & _ & _). split_and!; cbn [rows order index].
      * done.
      * by apply shuffle_Permutation.
      * exists 0. split; [done|]. intros _. rewrite E. simpl. lia.
  - pose proof (well_formed_lengths _ Hwf) as Hlen.
    destruct (step_next_frame w Hq) as [Hr Ho].
    destruct Hwf as (Hd & Hp & n & Hi & Hn). split_and!.
    + by rewrite Hr.
    + by rewrite Hr, Ho.
    + rewrite Hr. destruct (rows (st w)) as [|r rs] eqn:E.
      * exists n. split; [|done]. unfold step. cbn [handler].
        rewrite next_empty by (by apply length_zero_iff_nil).
        by rewrite flush_idle.
      * specialize (Hn ltac:(done)).
        destruct (step_next_nat w n Hq Hi ltac:(lia)) as [Hi' _].
        eexists. split; [exact Hi'|]. intros _. rewrite Hlen. simpl in *. lia.
  - erewrite step_presentation; [|done|reflexivity]. exact Hwf.
  - erewrite step_presentation; [|done|reflexivity]. exact Hwf.
  - erewrite step_presentation; [|done|reflexivity]. exact Hwf.
  - erewrite step_presentation; [|done|reflexivity]. exact Hwf.
  - destruct (requests w) as [|k] eqn:E.
    + unfold step. cbn [handler]. rewrite E. by rewrite flush_idle.
    + rewrite step_complete_st by (by rewrite ?E). split_and!; cbn [rows order index].
      * by exists data.
      * by apply shuffle_Permutation.
      * exists 0. split; [done|]. intros Hne.
        destruct (mapped data); [done|simpl; lia].
Qed.

Lemma run_well_formed (evs : list event) (w : world) :
  queue w = [] → Forall in_contract evs → well_formed (st w) →
  well_formed (st (run evs w)).
Proof.
  revert w. induction evs as [|ev evs IH]; intros w Hq Hc Hwf; [done|].
  apply Forall_cons in Hc as [Hev Hevs]. cbn [run fold_left].
  apply IH; [apply step_queue | done | by apply step_well_formed].
Qed.

(** The snapshot of a state reads back as that state's three cells,
    when it can be written exactly and neither array is empty. *)
Lemma valid_snapshot_of (s : state) :
  rows s ≠ [] → order s ≠ [] →
  json_exact (VArr (rows s)) = true →
  json_exact (VArr (order s)) = true →
  json_exact (VNum (index s)) = true →
  valid_snapshot (Some (JSON_stringify (snapshot_of s))) = Some (rows s, order s, index s).
Proof.
  intros Hr Ho Er Eo Ei. unfold snapshot_of.
  rewrite stringify_snapshot_exact by done.
  by destruct (rows s), (order s).
Qed.

(** A snapshot with an empty array is not valid, whatever else it holds. *)
Lemma valid_snapshot_empty (s : state) :
  rows s = [] ∨ order s = [] →
  valid_snapshot (Some (JSON_stringify (snapshot_of s))) = None.
Proof.
  intros H. unfold snapshot_of, JSON_stringify, snapshot.
  cbn [serialised]. destruct (index s) as [q| |]; cbn;
    destruct H as [-> | ->]; cbn; try done; by destruct (List.map _ _).
Qed.

End well_formed_sessions.

(** ** Storage follows the state *)

Section persistence.

Lemma handler_unmounted (ev : event) (w : world) :
  unmounted (handler ev w) = unmounted w.
Proof.
  destruct ev; cbn; try done.
  - unfold startNew. by destruct (_ =? _).
  - unfold next. by destruct (_ =? _).
  - by destruct (requests w).
Qed.

(** An unmounted component stays unmounted. *)
Lemma step_unmounted (w : world) (ev : event) :
  unmounted (step w ev) = false → unmounted w = false.
Proof.
  unfold step. rewrite flush_unmounted, handler_unmounted.
  by intros [? _]%orb_false_iff.
Qed.

Lemma run_unmounted (evs : list event) (w : world) :
  unmounted (run evs w) = false → unmounted w = false.
Proof.
  revert w. induction evs as [|ev evs IH]; intros w H; [done|].
  cbn [run fold_left] in H. by eapply step_unmounted, IH.
Qed.

(** A mounted component stays mounted over a turn whose state renders. *)
Lemma step_mounted (w : world) (ev : event) :
  unmounted w = false → renders (st (step w ev)) = true →
  unmounted (step w ev) = false.
Proof.
  intros Hu Hr. unfold step in *. rewrite flush_unmounted, handler_unmounted, Hu, Hr.
  by rewrite andb_false_r.
Qed.

Lemma flush_persisted (w : world) :
  unmounted (flush w) = false →
  existsb fresh_array (queue w) = true ∨ persisted w → persisted (flush w).
Proof.
  intros Hu H. destruct (queue w) as [|u q] eqn:Eq.
  - rewrite flush_idle by done. by destruct H.
  - rewrite flush_unmounted, Eq in Hu.
    apply orb_false_iff in Hu as [Hu Hr].
    rewrite bool_decide_eq_false_2 in Hr by done. cbn [negb andb] in Hr.
    apply negb_false_iff in Hr.
    unfold persisted. rewrite flush_localStorage, Hu, Hr, Eq. cbn [negb andb].
    destruct (deps_changed _ _ _) eqn:D; [done|].
    unfold deps_changed in D. apply orb_false_iff in D as [Hq Hi].
    destruct H as [H|H]; [congruence|].
    apply negb_false_iff, bool_decide_eq_true in Hi. rewrite flush_st, Eq in Hi |- *.
    destruct (fold_no_fresh_array (u :: q) (st w) Hq) as [Hr' Ho].
    rewrite H. unfold snapshot_of. by rewrite Hr', Ho, <-Hi.
Qed.

Lemma step_persisted (w : world) (ev : event) :
  queue w = [] → unmounted (step w ev) = false → persisted w → persisted (step w ev).
Proof.
  intros Hq Hu Hp. unfold step in *. apply flush_persisted; [done|].
  destruct ev as [random| | | | | |random data]; cbn [handler].
  - unfold startNew. destruct (length (rows (st w)) =? 0); [by right|].
    left. cbn [queue setItem enqueue]. rewrite Hq. done.
  - unfold next. destruct (length (order (st w)) =? 0); by right.
  - by right.
  - by right.
  - by right.
  - by right.
  - destruct (requests w); [by right|].
    left. unfold complete. cbn [queue setItem enqueue]. rewrite Hq. done.
Qed.

Lemma mount_persisted (strict : bool) (saved : option text) :
  unmounted (mount strict (boot saved)) = false →
  persisted (mount strict (boot saved)).
Proof.
  rewrite mount_boot. destruct (valid_snapshot saved) as [[[r o] i]|]; [|done].
  cbn [unmounted]. intros Hr%negb_false_iff. unfold persisted. cbn [localStorage st].
  by rewrite Hr.
Qed.

Lemma run_persisted (evs : list event) (w : world) :
  queue w = [] → (unmounted w = false → persisted w) →
  unmounted (run evs w) = false → persisted (run evs w).
Proof.
  revert w. induction evs as [|ev evs IH]; intros w Hq Hp Hu; [by apply Hp|].
  cbn [run fold_left] in *. apply IH; [apply step_queue | | done].
  intros Hu'. apply step_persisted; [done..|].
  by apply Hp, (step_unmounted w ev).
Qed.

(** On a first visit every state is one the component built, so every
    render goes through. *)
Lemma first_visit_well_formed (strict : bool) (saved : option text) (evs : list event) :
  valid_snapshot saved = None → Forall in_contract evs →
  well_formed (st (run evs (mount strict (boot saved)))).
Proof.
  intros Hv Hc. apply run_well_formed; [apply mount_queue | done |].
  rewrite mount_boot, Hv. apply initial_well_formed.
Qed.

Lemma run_mounted (evs : list event) (w : world) :
  queue w = [] → Forall in_contract evs → well_formed (st w) →
  unmounted w = false → unmounted (run evs w) = false.
Proof.
  revert w. induction evs as [|ev evs IH]; intros w Hq Hc Hwf Hu; [done|].
  apply Forall_cons in Hc as [Hev Hevs]. cbn [run fold_left].
  assert (Hwf' : well_formed (st (step w ev))) by by apply step_well_formed.
  apply IH; [apply step_queue | done | done |].
  apply step_mounted; [done|]. by apply well_formed_renders.
Qed.

Lemma first_visit_mounted (strict : bool) (saved : option text) (evs : list event) :
  valid_snapshot saved = None → Forall in_contract evs →
  unmounted (run evs (mount strict (boot saved))) = false.
Proof.
  intros Hv Hc. apply run_mounted; [apply mount_queue | done | |].
  - rewrite mount_boot, Hv. apply initial_well_formed.
  - by rewrite mount_boot, Hv.
Qed.

End persistence.

(** C7, as the code has it.  The persist effect runs after a render
    that went through.  As long as the component is mounted, after
    mounting and after every turn of the event loop since (a restore,
    the arrival of the catalog, a new session, an advance or any other
    event), the entry under the session key is the serialisation of
    [{order, index, rows}] of the current state; on a first visit that
    is always so.  When the render of a restored state throws, React
    unmounts the component and the entry stays what it was. *)
Theorem storage_follows_state (strict : bool) (saved : option text) (evs : list event) :
  let w := run evs (mount strict (boot saved)) in
  (unmounted w = false →
     localStorage w = Some (JSON_stringify (snapshot_of (st w)))) ∧
  (valid_snapshot saved = None → Forall in_contract evs →
     unmounted w = false ∧
     localStorage w = Some (JSON_stringify (snapshot_of (st w)))) ∧
  (∀ r o i, valid_snapshot saved = Some (r, o, i) →
     (unmounted (mount strict (boot saved)) = false ↔ is_Some (current (restored r o i))) ∧
     (current (restored r o i) = None →
        localStorage (mount strict (boot saved))
          = Some (JSON_stringify (snapshot_of initial)))).
Proof.
  intros w.
  assert (H : unmounted w = false →
              localStorage w = Some (JSON_stringify (snapshot_of (st w)))).
  { apply run_persisted; [apply mount_queue | apply mount_persisted]. }
  split_and!; [done| |].
  - intros Hv Hc. assert (Hu : unmounted w = false) by by apply first_visit_mounted.
    split; [done | by apply H].
  - intros r o i Hv. rewrite mount_boot, Hv. cbn [unmounted localStorage]. split.
    + rewrite negb_false_iff. apply renders_restored.
    + intros Hc%renders_restored_false. by rewrite Hc.
Qed.

(** The stored session of two tracks: after an advance and a new
    session the component is mounted and storage holds the snapshot of
    the state. *)
Lemma storage_follows_state_stored_session :
  let w := run [Click_next; Click_startNew half] (mount false (boot stored_session)) in
  unmounted w = false ∧
  localStorage w = Some (JSON_stringify (snapshot_of (st w))).
Proof.
  destruct (storage_follows_state false stored_session [Click_next; Click_startNew half])
    as (H & _).
  assert (Hu : unmounted (run [Click_next; Click_startNew half]
                            (mount false (boot stored_session))) = false)
    by (vm_compute; reflexivity).
  split; [exact Hu | exact (H Hu)].
Defined.

(** C7 as stated fails on a restore whose render throws: the snapshot
    below is valid and adopted, reading [rows[order[index]]] throws in
    the render that follows, the persist effect does not run, and
    storage holds the empty session and not the adopted one. *)
Lemma restore_unreadable_not_persisted :
  let w := mount false (boot stored_unreadable) in
  valid_snapshot stored_unreadable
    = Some ([VNull], [VObj [(lit "toString", VNum (num_of_nat 1))]], num_of_nat 0) ∧
  order (st w) = [VObj [(lit "toString", VNum (num_of_nat 1))]] ∧
  rows (st w) = [VNull] ∧
  current (st w) = None ∧
  unmounted w = true ∧
  localStorage w = Some (Json (snapshot (VArr []) (VNum (num_of_nat 0)) (VArr []))) ∧
  localStorage w ≠ Some (JSON_stringify (snapshot_of (st w))).
Proof. split_and!; [by vm_compute..|]. vm_compute. discriminate. Qed.

(** ** The cursor *)

Section cursor.

(** An event that queues one update of a cell other than [rows],
    [order] and [index]: the render applies it to the state. *)
Ltac presentation_event Hq :=
  unfold step; rewrite flush_st; cbn [handler queue st enqueue];
  rewrite Hq; cbn.

Lemma step_cursor_ok (w : world) (ev : event) :
  queue w = [] → cursor_ok (st w) → cursor_ok (st (step w ev)).
Proof.
  intros Hq Hc. destruct ev as [random| | | | | |random data].
  - destruct (rows (st w)) as [|r rs] eqn:E.
    + unfold step. cbn [handler]. rewrite startNew_empty by done.
      by rewrite flush_idle.
    + rewrite step_startNew_st by (by rewrite ?E). intros _. exists 0.
      split; [done|]. cbn [order].
      pose proof (shuffle_length_ge random (positions (rows (st w)))) as Hl.
      rewrite positions_length, E in Hl. simpl in Hl. rewrite E. lia.
  - destruct (order (st w)) as [|o os] eqn:E.
    + unfold step. cbn [handler]. rewrite next_empty by done.
      by rewrite flush_idle.
    + destruct Hc as (n & Hi & Hn); [by rewrite E|].
      destruct (step_next_nat w n Hq Hi Hn) as [Hi' Ho'].
      intros _. eexists. split; [exact Hi'|]. rewrite Ho'. lia.
  - by presentation_event Hq.
  - by presentation_event Hq.
  - by presentation_event Hq.
  - by presentation_event Hq.
  - destruct (requests w) as [|n] eqn:E.
    + unfold step. cbn [handler]. rewrite E. by rewrite flush_idle.
    + rewrite step_complete_st by (by rewrite ?E). unfold cursor_ok. cbn [order index].
      intros Hne. exists 0. split; [done|].
      pose proof (shuffle_length_ge random (positions (mapped data))) as Hl.
      destruct (positions (mapped data)) as [|p ps]; [by destruct Hne|].
      cbn [length] in Hl. lia.
Qed.

Lemma run_cursor_ok (evs : list event) (w : world) :
  queue w = [] → cursor_ok (st w) → cursor_ok (st (run evs w)).
Proof.
  revert w. induction evs as [|ev evs IH]; intros w Hq Hc; [done|].
  cbn [run fold_left]. apply IH; [apply step_queue | by apply step_cursor_ok].
Qed.

Lemma mount_cursor_ok (strict : bool) (saved : option text) :
  cursor_ok (st (mount strict (boot saved))) ↔ snapshot_cursor_ok saved.
Proof.
  rewrite mount_boot. unfold snapshot_cursor_ok.
  destruct (valid_snapshot saved) as [[[r o] i]|] eqn:E; cbn [st].
  - split.
    + intros Hc r' o' i' [= <- <- <-]. apply Hc. cbn.
      unfold valid_snapshot in E. repeat case_match; simplify_eq. done.
    + intros H _. by apply (H r o i).
  - split; [done|]. by intros _ ?.
Qed.

End cursor.

(** C4, as the code has it.  Every turn of the event loop keeps the
    cursor a position of the play order; the arrival of the catalog and
    a new session put it at position 0 of a play order at least as long
    as the catalog.  A restore takes [index] and [order] from storage
    unchecked, so the restored state has the property exactly when the
    stored snapshot has it; from such a page load on, every state has
    it. *)
Theorem cursor_within_play_order :
  (∀ w ev, queue w = [] → cursor_ok (st w) → cursor_ok (st (step w ev))) ∧
  (∀ strict saved,
     cursor_ok (st (mount strict (boot saved))) ↔ snapshot_cursor_ok saved) ∧
  (∀ strict saved evs,
     snapshot_cursor_ok saved →
     cursor_ok (st (run evs (mount strict (boot saved))))).
Proof.
  split_and!.
  - apply step_cursor_ok.
  - apply mount_cursor_ok.
  - intros strict saved evs Hs.
    apply run_cursor_ok; [apply mount_queue | by apply mount_cursor_ok].
Qed.

(** From a stored session at its second card, an advance and a new
    session leave the cursor on a card. *)
Lemma cursor_within_play_order_stored_session :
  let w := run [Click_next; Click_startNew half] (mount false (boot stored_session)) in
  order (st w) ≠ [] ∧
  ∃ n, index (st w) = num_of_nat n ∧ n < length (order (st w)).
Proof.
  destruct cursor_within_play_order as (_ & _ & H).
  assert (Hs : snapshot_cursor_ok stored_session).
  { intros r o i Hv. injection Hv as <- <- <-. exists 1. split; [reflexivity|].
    apply Nat.lt_succ_diag_r. }
  assert (Hne : order (st (run [Click_next; Click_startNew half]
                             (mount false (boot stored_session)))) ≠ [])
    by (vm_compute; discriminate).
  split; [exact Hne|].
  specialize (H false stored_session [Click_next; Click_startNew half] Hs Hne).
  vm_compute in H. vm_compute. exact H.
Defined.

(** C4 as stated fails on a restore: the snapshot below is valid and is
    adopted with index 7 into a play order of length 1. *)
Lemma restore_breaks_cursor :
  let saved := Some (Json (snapshot (VArr [VNum (num_of_nat 0)]) (VNum (num_of_nat 7))
                             (VArr [VNull]))) in
  let s := st (mount false (boot saved)) in
  valid_snapshot saved = Some ([VNull], [VNum (num_of_nat 0)], num_of_nat 7) ∧
  order s = [VNum (num_of_nat 0)] ∧
  index s = num_of_nat 7 ∧
  ¬ num_lt (index s) (num_of_nat (length (order s))) ∧
  ¬ cursor_ok s.
Proof.
  split_and!; [by vm_compute..| |].
  - intros H. vm_compute in H. done.
  - intros Hc. destruct Hc as (n & Hi & Hn); [done|].
    change (index _) with (num_of_nat 7) in Hi. apply num_of_nat_inj in Hi.
    subst n. vm_compute in Hn. lia.
Qed.

(** C10, as the code has it.  A restore adopts any valid snapshot as it
    is: nothing relates [index] to the length of [order], nor the
    entries of [order] to the length of [rows].  Reading [order[index]]
    never throws.  [rows[order[index]]] gives [undefined], shown as "no
    more cards", when [index] is no position of [order] (negative,
    fractional, infinite, too large), and when the entry of [order] at
    [index] is a number that is no position of [rows]; it gives the
    track when both are positions; with a number for an entry it never
    throws.  An entry that is not a number is converted to a property
    name, and that conversion throws for an object with a [toString] of
    its own: the render throws and React unmounts the component. *)
Theorem restore_unchecked (strict : bool) (saved : option text)
    (r o : list val) (i : number) :
  valid_snapshot saved = Some (r, o, i) →
  let w := mount strict (boot saved) in
  let s := st w in
  rows s = r ∧ order s = o ∧ index s = i ∧
  current s = array_get r (array_read o (KNum i)) ∧
  ((∀ n, num_index i = Some n → length o ≤ n) →
     current s = Some VUndef ∧ display s = Some NoMoreCards) ∧
  (∀ n x, num_index i = Some n → o !! n = Some (VNum x) →
     is_Some (current s) ∧
     ((∀ m, num_index x = Some m → length r ≤ m) →
      current s = Some VUndef ∧ display s = Some NoMoreCards)) ∧
  (∀ n m t, num_index i = Some n → o !! n = Some (VNum (num_of_nat m)) →
     r !! m = Some t → current s = Some t) ∧
  (∀ n props, num_index i = Some n → o !! n = Some (VObj props) →
     is_Some (own_property props (lit "toString")) →
     current s = None ∧ display s = None) ∧
  (current s = None ↔ unmounted w = true) ∧
  (num_index (num_of_Z (-1)) = None ∧ num_index (Fin (Q2Qc (3 # 2))) = None ∧
   num_index PosInf = None ∧ num_index NegInf = None).
Proof.
  intros Hv w s. unfold s, w. rewrite mount_boot, Hv. cbn [st unmounted].
  unfold display. rewrite current_key. cbn [restored rows order index loading].
  split_and!; try done.
  - intros Hi. rewrite (array_read_outside o i Hi), array_get_undefined. done.
  - intros n x Hn Hx. cbn [array_read]. rewrite Hn, Hx. cbn [default from_option id].
    split; [by rewrite array_get_number|].
    intros Hm. by rewrite (array_get_outside r x Hm).
  - intros n m t Hn Hm Ht. cbn [array_read]. rewrite Hn, Hm. cbn [default from_option id].
    by rewrite array_get_number, num_index_nat, Ht.
  - intros n props Hn Hp Hts. cbn [array_read]. rewrite Hn, Hp. cbn [default from_option id].
    unfold array_get. by rewrite (to_key_toString props Hts).
  - rewrite negb_true_iff. symmetry. apply (renders_restored_false r o i).
Qed.

(** An index past the end of the play order is adopted, and shows "no
    more cards". *)
Lemma restore_unchecked_past_end :
  let s := st (mount false (boot stored_past_end)) in
  index s = num_of_nat 7 ∧
  length (order s) = 1 ∧
  current s = Some VUndef ∧
  display s = Some NoMoreCards.
Proof.
  destruct (restore_unchecked false stored_past_end [VNull] [VNum (num_of_nat 0)]
              (num_of_nat 7) eq_refl) as (_ & _ & _ & _ & H & _).
  assert (Hout : ∀ n, num_index (num_of_nat 7) = Some n →
                      length [VNum (num_of_nat 0)] ≤ n).
  { intros n Hn. injection Hn as <-. apply Nat.lt_0_succ. }
  destruct (H Hout) as [Hc Hd].
  split_and!; [reflexivity | reflexivity | exact Hc | exact Hd].
Defined.

(** C10 as stated fails on an entry of [order] that is not a number: the
    string ["length"] is no position of [rows], yet [rows["length"]] is
    the length of the array, a truthy number, and the card is shown. *)
Lemma order_entry_names_length :
  let saved := Some (Json (snapshot (VArr [VStr (lit "length")]) (VNum (num_of_nat 0))
                             (VArr [VNull]))) in
  let s := st (mount false (boot saved)) in
  valid_snapshot saved = Some ([VNull], [VStr (lit "length")], num_of_nat 0) ∧
  rows s = [VNull] ∧
  order s = [VStr (lit "length")] ∧
  index s = num_of_nat 0 ∧
  current s = Some (VNum (num_of_nat 1)) ∧
  display s = Some (Card (VNum (num_of_nat 1))).
Proof. by vm_compute. Qed.

(** * Further properties *)

(** ** Reloading the page *)

Section reloading.

Lemma current_restored (s : state) :
  current (restored (rows s) (order s) (index s)) = current s.
Proof. done. Qed.

(** Storage that holds the snapshot of a state with two non-empty
    arrays and nothing JSON cannot write is restored as that state, and
    is storage again after the reload when the current track of the
    state can be read. *)
Lemma reload_restores (strict : bool) (w : world) :
  persisted w →
  rows (st w) ≠ [] → order (st w) ≠ [] →
  json_exact (VArr (rows (st w))) = true →
  json_exact (VArr (order (st w))) = true →
  json_exact (VNum (index (st w))) = true →
  is_Some (current (st w)) →
  reload strict w =
  {| st := restored (rows (st w)) (order (st w)) (index (st w));
     localStorage := localStorage w;
     restoredRef := true; console := []; requests := 0; queue := [];
     unmounted := false |}.
Proof.
  intros Hp Hr Ho Er Eo Ei Hc. unfold reload. rewrite mount_boot, Hp.
  rewrite valid_snapshot_of by done.
  rewrite <-current_restored in Hc. apply renders_restored in Hc. rewrite Hc.
  unfold snapshot_of. done.
Qed.

(** When it cannot be read, the reload ends unmounted with the empty
    session in storage. *)
Lemma reload_unreadable (strict : bool) (w : world) :
  persisted w →
  rows (st w) ≠ [] → order (st w) ≠ [] →
  json_exact (VArr (rows (st w))) = true →
  json_exact (VArr (order (st w))) = true →
  json_exact (VNum (index (st w))) = true →
  current (st w) = None →
  reload strict w =
  {| st := restored (rows (st w)) (order (st w)) (index (st w));
     localStorage := Some (JSON_stringify (snapshot_of initial));
     restoredRef := true; console := []; requests := 0; queue := [];
     unmounted := true |}.
Proof.
  intros Hp Hr Ho Er Eo Ei Hc. unfold reload. rewrite mount_boot, Hp.
  rewrite valid_snapshot_of by done.
  rewrite <-current_restored in Hc. apply renders_restored_false in Hc.
  by rewrite Hc.
Qed.

(** Storage that holds the snapshot of a state with an empty array is
    not restored: the page starts over and downloads the catalog. *)
Lemma reload_starts_over (strict : bool) (w : world) :
  persisted w →
  rows (st w) = [] ∨ order (st w) = [] →
  reload strict w =
  {| st := initial;
     localStorage := Some (JSON_stringify (snapshot_of initial));
     restoredRef := true; console := []; requests := 1; queue := [];
     unmounted := false |}.
Proof.
  intros Hp He. unfold reload. rewrite mount_boot, Hp.
  rewrite valid_snapshot_empty by done. unfold warned, JSON_stringify.
  by destruct (serialised _).
Qed.

End reloading.

(** X1.  Whatever happens during a first visit, a reload of the page
    brings the session back: when a catalog with at least one row has
    arrived, the reloaded page has the same rows, play order and index,
    is not loading and downloads nothing; the metadata is hidden again
    and the player plays, as on a first render.  While the catalog is
    empty or has not arrived, the reloaded page starts over and
    downloads it. *)
Theorem session_survives_reload (strict strict' : bool) (saved : option text)
    (evs : list event) :
  valid_snapshot saved = None →
  Forall in_contract evs →
  let w := run evs (mount strict (boot saved)) in
  (rows (st w) ≠ [] →
     st (reload strict' w) = restored (rows (st w)) (order (st w)) (index (st w)) ∧
     localStorage (reload strict' w) = localStorage w ∧
     requests (reload strict' w) = 0) ∧
  (rows (st w) = [] →
     st (reload strict' w) = initial ∧ requests (reload strict' w) = 1).
Proof.
  intros Hv Hc w.
  assert (Hwf : well_formed (st w)) by by apply first_visit_well_formed.
  assert (Hp : persisted w).
  { apply run_persisted; [apply mount_queue | apply mount_persisted |].
    by apply first_visit_mounted. }
  split.
  - intros Hr. destruct (well_formed_exact _ Hwf) as (Er & Eo & Ei).
    assert (Ho : order (st w) ≠ []).
    { intros Ho. apply Hr, length_zero_iff_nil.
      by rewrite <-(well_formed_lengths _ Hwf), Ho. }
    destruct (well_formed_current _ Hwf Hr) as (n & m & t & _ & _ & _ & Ht & _).
    by rewrite (reload_restores strict' w) by (by rewrite ?Ht).
  - intros Hr. by rewrite (reload_starts_over strict' w Hp (or_introl Hr)).
Qed.

(** A first visit under StrictMode in which a catalog of one row arrived
    and the card was revealed: the reloaded page has the session back. *)
Lemma session_survives_reload_one_track :
  let data : list raw_row := [ {[ lit "URL" := lit "https://x.com/a" ]} ] in
  let w := run [Papa_complete half data; Click_reveal] (mount true (boot None)) in
  rows (st w) ≠ [] ∧
  st (reload false w) = restored (rows (st w)) (order (st w)) (index (st w)) ∧
  localStorage (reload false w) = localStorage w ∧
  requests (reload false w) = 0.
Proof.
  assert (Hc : Forall in_contract
                 [Papa_complete half [ {[ lit "URL" := lit "https://x.com/a" ]} ];
                  Click_reveal]).
  { apply List.Forall_cons; [exact half_unit_double|]. apply List.Forall_cons; [exact I|].
    apply List.Forall_nil. }
  destruct (session_survives_reload true false None _ eq_refl Hc) as [H _].
  assert (Hne : rows (st (run [Papa_complete half
                                 [ {[ lit "URL" := lit "https://x.com/a" ]} ];
                               Click_reveal] (mount true (boot None)))) ≠ [])
    by (vm_compute; discriminate).
  split; [exact Hne | exact (H Hne)].
Defined.

(** X2.  Between two events, for any state: if the snapshot in storage
    is that of the state, both arrays are non-empty and nothing in them
    is beyond JSON (no infinity), a reload adopts rows, play order and
    index exactly and starts no download.  When the current track of
    the state can be read, the reload leaves storage as it was; when
    reading it throws, the reload ends unmounted and storage holds the
    empty session: the stored session is gone.  With an empty [rows] or
    [order] the reload starts over instead. *)
Theorem persist_then_restore (strict : bool) (w : world) :
  persisted w →
  (rows (st w) ≠ [] → order (st w) ≠ [] →
   json_exact (snapshot_of (st w)) = true →
   st (reload strict w) = restored (rows (st w)) (order (st w)) (index (st w)) ∧
   requests (reload strict w) = 0 ∧ console (reload strict w) = [] ∧
   (is_Some (current (st w)) →
      unmounted (reload strict w) = false ∧
      localStorage (reload strict w) = localStorage w) ∧
   (current (st w) = None →
      unmounted (reload strict w) = true ∧
      localStorage (reload strict w) = Some (JSON_stringify (snapshot_of initial)))) ∧
  (rows (st w) = [] ∨ order (st w) = [] →
   st (reload strict w) = initial ∧ requests (reload strict w) = 1 ∧
   console (reload strict w) = [] ∧ unmounted (reload strict w) = false).
Proof.
  intros Hp. split.
  - intros Hr Ho He. unfold snapshot_of, snapshot in He. cbn [json_exact forallb snd] in He.
    apply andb_true_iff in He as [Eo He]. apply andb_true_iff in He as [Ei He].
    apply andb_true_iff in He as [Er _].
    destruct (current (st w)) as [c|] eqn:Hc.
    + rewrite (reload_restores strict w) by (by rewrite ?Hc). by split_and!.
    + rewrite (reload_unreadable strict w) by done. by split_and!.
  - intros He. by rewrite (reload_starts_over strict w Hp He).
Qed.

(** The session of three tracks comes back from its own snapshot. *)
Lemma persist_then_restore_three_tracks :
  st (reload true three_tracks)
    = restored (rows (st three_tracks)) (order (st three_tracks)) (index (st three_tracks)) ∧
  unmounted (reload true three_tracks) = false ∧
  localStorage (reload true three_tracks) = localStorage three_tracks ∧
  requests (reload true three_tracks) = 0 ∧ console (reload true three_tracks) = [].
Proof.
  destruct (persist_then_restore true three_tracks eq_refl) as [H _].
  destruct H as (Hs & Hr & Hc & Hm & _); [discriminate | discriminate | reflexivity |].
  destruct Hm as [Hu Hl]; [by eexists|].
  split_and!; [exact Hs | exact Hu | exact Hl | exact Hr | exact Hc].
Defined.

(** ** What the page shows *)

Section showing.

(** While the page is loading there is no catalog yet. *)
Lemma step_loading_rows (w : world) (ev : event) :
  queue w = [] →
  (loading (st w) = true → rows (st w) = []) →
  loading (st (step w ev)) = true → rows (st (step w ev)) = [].
Proof.
  intros Hq H. destruct ev as [random| | | | | |random data].
  - destruct (rows (st w)) as [|r rs] eqn:E.
    + unfold step. cbn [handler]. rewrite startNew_empty by done.
      rewrite flush_idle by done. by rewrite E.
    + rewrite step_startNew_st by (by rewrite ?E). cbn. intros Hl. by specialize (H Hl).
  - destruct (step_next_frame w Hq) as [-> _].
    destruct (order (st w)) as [|o os] eqn:E.
    + unfold step. cbn [handler]. rewrite next_empty by done.
      by rewrite flush_idle.
    + rewrite step_next_st by (by rewrite ?E). done.
  - erewrite step_presentation; [|done|reflexivity]. done.
  - erewrite step_presentation; [|done|reflexivity]. done.
  - erewrite step_presentation; [|done|reflexivity]. done.
  - erewrite step_presentation; [|done|reflexivity]. done.
  - destruct (requests w) as [|k] eqn:E.
    + unfold step. cbn [handler]. rewrite E. by rewrite flush_idle.
    + rewrite step_complete_st by (by rewrite ?E). done.
Qed.

Lemma run_loading_rows (evs : list event) (w : world) :
  queue w = [] →
  (loading (st w) = true → rows (st w) = []) →
  loading (st (run evs w)) = true → rows (st (run evs w)) = [].
Proof.
  revert w. induction evs as [|ev evs IH]; intros w Hq H; [done|].
  cbn [run fold_left]. apply IH; [apply step_queue | by apply step_loading_rows].
Qed.

End showing.

(** X3.  During a first visit the page shows "Loading CSV" until the
    catalog arrives; from then on, whatever is clicked, it shows the card
    of a track of the catalog, and "No more cards" only when the catalog
    has no row at all.  Reading the current track never throws. *)
Theorem catalog_card_always_shown (strict : bool) (saved : option text)
    (evs : list event) :
  valid_snapshot saved = None →
  Forall in_contract evs →
  let s := st (run evs (mount strict (boot saved))) in
  match display s with
  | Some LoadingCSV => loading s = true ∧ rows s = []
  | Some NoMoreCards => loading s = false ∧ rows s = []
  | Some (Card t) => loading s = false ∧ t ∈ rows s
  | None => False
  end.
Proof.
  intros Hv Hc s.
  assert (Hwf : well_formed (st (run evs (mount strict (boot saved)))))
    by by apply first_visit_well_formed.
  assert (Hl : loading s = true → rows s = []).
  { apply run_loading_rows; [apply mount_queue|]. by rewrite mount_boot, Hv. }
  fold s in Hwf. unfold display.
  destruct (rows s) as [|r rs] eqn:E.
  - assert (Ho : order s = []).
    { apply length_zero_iff_nil. by rewrite (well_formed_lengths _ Hwf), E. }
    rewrite (current_without_order s Ho). cbn.
    by destruct (loading s).
  - destruct (well_formed_current s Hwf) as (n & m & t & _ & _ & Ht & -> & Htr);
      [by rewrite E|].
    cbn. destruct (loading s) eqn:El; [by specialize (Hl eq_refl)|].
    rewrite Htr. split; [done|]. rewrite <-E. by eapply list_elem_of_lookup_2.
Qed.

(** After the catalog of one row arrived, a reveal and an advance, the
    page shows the card of a track of the catalog. *)
Lemma catalog_card_always_shown_one_track :
  let data : list raw_row := [ {[ lit "URL" := lit "https://x.com/a" ]} ] in
  let s := st (run [Papa_complete half data; Click_reveal; Click_next]
                 (mount false (boot None))) in
  ∃ t, display s = Some (Card t) ∧ loading s = false ∧ t ∈ rows s.
Proof.
  assert (Hc : Forall in_contract
                 [Papa_complete half [ {[ lit "URL" := lit "https://x.com/a" ]} ];
                  Click_reveal; Click_next]).
  { apply List.Forall_cons; [exact half_unit_double|]. apply List.Forall_cons; [exact I|].
    apply List.Forall_cons; [exact I|]. apply List.Forall_nil. }
  pose proof (catalog_card_always_shown false None _ eq_refl Hc) as H.
  assert (Hne : rows (st (run [Papa_complete half
                                 [ {[ lit "URL" := lit "https://x.com/a" ]} ];
                               Click_reveal; Click_next] (mount false (boot None)))) ≠ [])
    by (vm_compute; discriminate).
  cbv zeta in H |- *.
  destruct (display _) as [[| |t]|].
  - destruct (Hne (proj2 H)).
  - destruct (Hne (proj2 H)).
  - exists t. split; [reflexivity | exact H].
  - destruct H.
Defined.

(** X4.  Reveal, play or pause, the volume slider and the callbacks of
    the player touch the presentation only: rows, play order, index and
    the loading flag stay as they are, nothing is written to storage or
    to the console, and no download starts or ends. *)
Theorem presentation_frame (w : world) (ev : event) (u : update) :
  queue w = [] →
  presentation ev = Some u →
  let w' := step w ev in
  rows (st w') = rows (st w) ∧ order (st w') = order (st w) ∧
  index (st w') = index (st w) ∧ loading (st w') = loading (st w) ∧
  localStorage w' = localStorage w ∧ console w' = console w ∧
  requests w' = requests w ∧ restoredRef w' = restoredRef w.
Proof.
  intros Hq Hu w'. unfold w'. rewrite (step_presentation w ev u Hq Hu).
  by destruct ev; simplify_eq/=.
Qed.

(** Pausing the session of three tracks touches nothing of the session. *)
Lemma presentation_frame_three_tracks :
  let w' := step three_tracks Click_play in
  rows (st w') = rows (st three_tracks) ∧ order (st w') = order (st three_tracks) ∧
  index (st w') = index (st three_tracks) ∧ loading (st w') = loading (st three_tracks) ∧
  localStorage w' = localStorage three_tracks ∧ console w' = console three_tracks ∧
  requests w' = requests three_tracks ∧ restoredRef w' = restoredRef three_tracks.
Proof. exact (presentation_frame three_tracks Click_play (SetPlaying negb) eq_refl eq_refl). Defined.

(** X5.  A first visit never crashes: whatever the catalog holds and
    whatever is clicked, every render goes through and the component
    stays mounted.  [main] shows "Loading CSV" while loading, "No more
    cards" only without a catalog row, and else a card that offers Next
    and shows the metadata when revealed, and offers Reveal and hides
    them otherwise. *)
Theorem first_visit_renders (strict : bool) (saved : option text) (evs : list event) :
  valid_snapshot saved = None →
  Forall in_contract evs →
  let w := run evs (mount strict (boot saved)) in
  unmounted w = false ∧
  ∃ v, render_main (st w) = Some v ∧
    match v with
    | MainLoading => loading (st w) = true
    | MainNoMoreCards => loading (st w) = false ∧ rows (st w) = []
    | MainCard cv =>
        loading (st w) = false ∧ rows (st w) ≠ [] ∧
        card_action cv = (if revealed (st w) then NextButton else RevealButton) ∧
        (card_meta cv = None ↔ revealed (st w) = false)
    end.
Proof.
  intros Hv Hc w.
  assert (Hwf : well_formed (st w)) by by apply first_visit_well_formed.
  split; [by apply first_visit_mounted|].
  pose proof (well_formed_renders _ Hwf) as Hr. unfold renders in Hr.
  pose proof (render_main_cases (st w)) as Hcases.
  destruct (render_main (st w)) as [v|]; [|done]. exists v. split; [done|].
  destruct v as [| |cv].
  - unfold display in Hcases. destruct (current (st w)); [|done].
    cbn in Hcases. destruct (loading (st w)); [done|]. by destruct (truthy _).
  - assert (Hl : loading (st w) = false).
    { unfold display in Hcases. destruct (current (st w)); [|done].
      cbn in Hcases. by destruct (loading (st w)). }
    split; [done|]. destruct (rows (st w)) as [|r0 rs] eqn:E; [done|].
    destruct (well_formed_current _ Hwf) as (n & m & t & _ & _ & _ & Ht & Htr);
      [by rewrite E|].
    unfold display in Hcases. rewrite Ht in Hcases. cbn in Hcases.
    rewrite Hl, Htr in Hcases. done.
  - destruct Hcases as (t & Hd & Hcv).
    pose proof (display_card_order _ _ Hd) as Ho.
    apply display_card in Hd as (_ & _ & Hl).
    destruct (render_card_Some _ _ _ Hcv) as (Ha & Hm & _).
    split_and!; [done| |done..].
    intros E. apply Ho, length_zero_iff_nil.
    by rewrite (well_formed_lengths _ Hwf), E.
Qed.

(** A first visit in which a catalog of one row arrived and the card
    was revealed: the component is mounted and [main] rendered. *)
Lemma first_visit_renders_one_track :
  let data : list raw_row := [ {[ lit "URL" := lit "https://x.com/a" ]} ] in
  let w := run [Papa_complete half data; Click_reveal] (mount true (boot None)) in
  unmounted w = false ∧ is_Some (render_main (st w)).
Proof.
  assert (Hc : Forall in_contract
                 [Papa_complete half [ {[ lit "URL" := lit "https://x.com/a" ]} ];
                  Click_reveal]).
  { apply List.Forall_cons; [exact half_unit_double|]. apply List.Forall_cons; [exact I|].
    apply List.Forall_nil. }
  destruct (first_visit_renders true None _ eq_refl Hc) as (Hu & v & Hv & _).
  split; [exact Hu | exact (ex_intro _ v Hv)].
Defined.

(** ** Revealing and advancing *)

Section revealing.

(** No event but Reveal reveals. *)
Lemma step_stays_hidden (w : world) (ev : event) :
  queue w = [] → ev ≠ Click_reveal →
  revealed (st w) = false → revealed (st (step w ev)) = false.
Proof.
  intros Hq Hev Hr. destruct ev as [random| | | | | |random data]; [| |done| | | |].
  - destruct (rows (st w)) as [|r rs] eqn:E.
    + unfold step. cbn [handler]. rewrite startNew_empty by done.
      by rewrite flush_idle.
    + by rewrite step_startNew_st by (by rewrite ?E).
  - destruct (order (st w)) as [|o os] eqn:E.
    + unfold step. cbn [handler]. rewrite next_empty by done.
      by rewrite flush_idle.
    + by rewrite step_next_st by (by rewrite ?E).
  - erewrite step_presentation; [|done|reflexivity]. done.
  - erewrite step_presentation; [|done|reflexivity]. done.
  - erewrite step_presentation; [|done|reflexivity]. done.
  - destruct (requests w) as [|k] eqn:E.
    + unfold step. cbn [handler]. rewrite E. by rewrite flush_idle.
    + by rewrite step_complete_st by (by rewrite ?E).
Qed.

Lemma run_stays_hidden (evs : list event) (w : world) :
  queue w = [] → Forall (λ ev, ev ≠ Click_reveal) evs →
  revealed (st w) = false → revealed (st (run evs w)) = false.
Proof.
  revert w. induction evs as [|ev evs IH]; intros w Hq Hevs Hr; [done|].
  apply Forall_cons in Hevs as [Hev Hevs]. cbn [run fold_left].
  apply IH; [apply step_queue | done | by apply step_stays_hidden].
Qed.

Lemma offered_next (s : state) :
  offered s Click_next = true →
  revealed s = true ∧ order s ≠ [] ∧ loading s = false.
Proof.
  cbn [offered]. pose proof (render_main_cases s) as H.
  destruct (render_main s) as [[| |cv]|]; [done..| |done].
  destruct H as (t & Hd & Hcv). destruct (render_card_Some _ _ _ Hcv) as (Ha & _).
  rewrite Ha. destruct (revealed s); [|done]. intros _. split_and!; [done| |].
  - by eapply display_card_order.
  - by apply display_card in Hd as (_ & _ & ?).
Qed.

(** A card whose metadata is hidden is on the page, with Reveal. *)
Lemma offered_reveal (s : state) (t : val) :
  display s = Some (Card t) → revealed s = false → offered s Click_reveal = true.
Proof.
  intros Hd Hr. cbn [offered]. unfold render_main. rewrite Hd. cbn [mbind option_bind].
  apply display_card in Hd as (_ & Ht & _).
  destruct (render_card_hidden s t Ht Hr) as (cv & Hcv & Ha & _).
  rewrite Hcv. cbn. by rewrite Ha.
Qed.

Lemma not_offered_next_hidden (s : state) :
  revealed s = false → offered s Click_next = false.
Proof.
  intros Hr. destruct (offered s Click_next) eqn:E; [|done].
  apply offered_next in E as [E _]. congruence.
Qed.

End revealing.

(** X6.  A card stays hidden until Reveal is clicked: after an advance
    over a non-empty play order, or a new session over a non-empty
    catalog, no sequence of other events (play, volume, player
    callbacks, further advances or new sessions, the arrival of the
    catalog) sets [revealed]. *)
Theorem hidden_until_revealed (w : world) (ev : event) (evs : list event) :
  queue w = [] →
  (ev = Click_next ∧ order (st w) ≠ []) ∨
  (∃ random, ev = Click_startNew random ∧ rows (st w) ≠ []) →
  Forall (λ ev', ev' ≠ Click_reveal) evs →
  revealed (st (run evs (step w ev))) = false.
Proof.
  intros Hq Hev Hevs. apply run_stays_hidden; [apply step_queue | done |].
  destruct Hev as [[-> Ho]|(random & -> & Hr)].
  - by rewrite step_next_st.
  - by rewrite step_startNew_st.
Qed.

(** The revealed first card of three: after Next, neither play, another
    Next nor a new session reveals anything. *)
Lemma hidden_until_revealed_three_tracks :
  revealed (st three_tracks) = true ∧
  revealed (st (run [Click_play; Click_next; Click_startNew half]
                  (step three_tracks Click_next))) = false.
Proof.
  split; [reflexivity|].
  apply (hidden_until_revealed three_tracks Click_next); [reflexivity | |].
  - left. split; [reflexivity | discriminate].
  - apply List.Forall_cons; [discriminate|]. apply List.Forall_cons; [discriminate|].
    apply List.Forall_cons; [discriminate|]. apply List.Forall_nil.
Defined.

(** X7.  The Next button is on the page only for a revealed card, and
    then the play order is not empty, so the click does advance: it
    hides the metadata, and Next is gone until the new card is revealed.
    The page offers Reveal in its place whenever it still shows a card. *)
Theorem next_needs_reveal (w : world) :
  queue w = [] →
  offered (st w) Click_next = true →
  let w' := step w Click_next in
  revealed (st w) = true ∧ order (st w) ≠ [] ∧
  index (st w') = Math_min (num_add (index (st w)) 1)
                    (num_add (num_of_nat (length (order (st w)))) (-1)) ∧
  revealed (st w') = false ∧
  offered (st w') Click_next = false ∧
  (∀ t, display (st w') = Some (Card t) → offered (st w') Click_reveal = true).
Proof.
  intros Hq Hoff w'. destruct (offered_next _ Hoff) as (Hr & Ho & Hl).
  assert (Hr' : revealed (st w') = false) by (unfold w'; by rewrite step_next_st).
  split_and!; [done..| | | |].
  - unfold w'. by rewrite step_next_st.
  - done.
  - by apply not_offered_next_hidden.
  - intros t Hd. by eapply offered_reveal.
Qed.

(** The session of three tracks shows Next on its revealed first card;
    the click leads to card 1, hidden, without a Next button. *)
Lemma next_needs_reveal_three_tracks :
  let w' := step three_tracks Click_next in
  offered (st three_tracks) Click_next = true ∧
  index (st w') = num_of_nat 1 ∧
  revealed (st w') = false ∧
  offered (st w') Click_next = false.
Proof.
  assert (Hoff : offered (st three_tracks) Click_next = true) by (vm_compute; reflexivity).
  destruct (next_needs_reveal three_tracks eq_refl Hoff) as (_ & _ & Hi & Hr & Hn & _).
  split_and!; [exact Hoff | exact Hi | exact Hr | exact Hn].
Defined.

(** ** One download per page load *)

(** X8.  A page load downloads the catalog at most once.  After a
    restore no download is ever in flight and the rows stay the restored
    ones through every event; after a first visit one download is in
    flight until its callback ran; and once none is in flight, no event
    changes the rows any more (a second completion is not acted on). *)
Theorem catalog_loaded_once (strict : bool) (saved : option text) (evs : list event) :
  let w := run evs (mount strict (boot saved)) in
  requests w ≤ 1 ∧
  (∀ r o i, valid_snapshot saved = Some (r, o, i) →
     requests w = 0 ∧ rows (st w) = r) ∧
  (valid_snapshot saved = None →
     requests (mount strict (boot saved)) = 1 ∧
     ∀ random data,
       requests (step (mount strict (boot saved)) (Papa_complete random data)) = 0) ∧
  (requests w = 0 → ∀ evs', rows (st (run evs' w)) = rows (st w)).
Proof.
  intros w. split_and!.
  - unfold w. etrans; [apply run_requests|]. rewrite mount_boot.
    destruct (valid_snapshot saved) as [[[r o] i]|]; cbn; lia.
  - intros r o i Hv.
    assert (Hm : requests (mount strict (boot saved)) = 0) by by rewrite mount_boot, Hv.
    split.
    + pose proof (run_requests evs (mount strict (boot saved))). fold w in H. lia.
    + unfold w. rewrite run_rows_fixed; [|apply mount_queue|done].
      by rewrite mount_boot, Hv.
  - intros Hv. rewrite mount_boot, Hv. split; [done|]. intros random data.
    unfold step. by rewrite flush_requests.
  - intros Hr evs'. apply run_rows_fixed; [|done].
    apply run_queue, mount_queue.
Qed.

(** After a restore, a completion that nobody asked for and an advance
    leave the restored rows and no download. *)
Lemma catalog_loaded_once_stored_session :
  let w := run [Papa_complete half []; Click_next] (mount true (boot stored_session)) in
  requests w = 0 ∧ rows (st w) = [VStr (lit "a"); VStr (lit "b")].
Proof.
  destruct (catalog_loaded_once true stored_session [Papa_complete half []; Click_next])
    as (_ & H & _).
  exact (H _ _ _ eq_refl).
Defined.

(** ** The cursor, repaired *)

(** X9.  An index that a restore took over out of range does not stay
    so.  A new session over a non-empty catalog puts the cursor on the
    first card of a non-empty play order, whatever the index was.  An
    advance from any non-negative integer index leaves the cursor on a
    card, and from an index at or past the end on the last card. *)
Theorem cursor_repaired (w : world) :
  queue w = [] →
  (∀ random, rows (st w) ≠ [] →
     let w' := step w (Click_startNew random) in
     index (st w') = num_of_nat 0 ∧ order (st w') ≠ [] ∧ cursor_ok (st w')) ∧
  (∀ n, index (st w) = num_of_nat n → order (st w) ≠ [] →
     let w' := step w Click_next in
     index (st w') = num_of_nat ((n + 1) `min` (length (order (st w)) - 1)) ∧
     cursor_ok (st w') ∧
     (length (order (st w)) ≤ n + 1 →
      index (st w') = num_of_nat (length (order (st w)) - 1))).
Proof.
  intros Hq. split.
  - intros random Hr w'. unfold w'. rewrite step_startNew_st by done.
    cbn [index order].
    pose proof (shuffle_length_ge random (positions (rows (st w)))) as Hl.
    rewrite positions_length in Hl.
    assert (0 < length (rows (st w))) by (destruct (rows (st w)); [done|simpl; lia]).
    split_and!; [done| |].
    + intros E. rewrite E in Hl. simpl in Hl. lia.
    + intros _. exists 0. split; [done|]. cbn [order]. lia.
  - intros n Hi Ho w'.
    assert (Hlen : 0 < length (order (st w))) by (destruct (order (st w)); [done|simpl; lia]).
    assert (Hi' : index (st w')
                  = num_of_nat ((n + 1) `min` (length (order (st w)) - 1))).
    { unfold w'. rewrite step_next_st by done.
      cbn -[num_add num_of_nat Math_min Math_max].
      by rewrite Hi, num_add_nat, num_pred_nat, Math_min_nat by lia. }
    destruct (step_next_frame w Hq) as [_ Ho'].
    split_and!; [done| |].
    + intros _. eexists. split; [exact Hi'|]. unfold w'. rewrite Ho'. lia.
    + intros Hn. rewrite Hi'. f_equal. lia.
Qed.

(** The restored index 7 in a play order of one card: one advance puts
    the cursor on card 0. *)
Lemma cursor_repaired_past_end :
  let w := mount false (boot stored_past_end) in
  index (st w) = num_of_nat 7 ∧ length (order (st w)) = 1 ∧
  index (st (step w Click_next)) = num_of_nat 0 ∧
  cursor_ok (st (step w Click_next)).
Proof.
  destruct (cursor_repaired (mount false (boot stored_past_end)) eq_refl) as [_ H].
  destruct (H 7 eq_refl ltac:(discriminate)) as (Hi & Hc & _).
  split_and!; [reflexivity | reflexivity | exact Hi | exact Hc].
Defined.

(** ** The footer *)

Section progress.

Lemma Math_min_le_r (x y : number) : num_le (Math_min x y) y.
Proof.
  unfold Math_min. destruct (num_leb x y) eqn:E; [by apply num_leb_le|].
  destruct y; cbn; [apply Qcle_refl|done..].
Qed.

End progress.

(** X10.  The footer never shows more than the total: with a catalog,
    "a/b" has [b] the length of the play order and [a <= b], whatever
    the index; on card [n] (counted from 0) it reads [n+1]/[b], and for
    an index at or past the end [b]/[b].  Without a catalog it reads
    0/0. *)
Theorem footer_progress (s : state) :
  (rows s = [] → footer s = (num_of_nat 0, num_of_nat 0)) ∧
  (rows s ≠ [] →
     (footer s).2 = num_of_nat (length (order s)) ∧
     num_le (footer s).1 (footer s).2) ∧
  (∀ n, rows s ≠ [] → index s = num_of_nat n →
     footer s = (num_of_nat ((n + 1) `min` length (order s)),
                 num_of_nat (length (order s)))).
Proof.
  unfold footer. split_and!.
  - by intros ->.
  - intros Hr. destruct (rows s); [done|]. cbn [length Nat.eqb fst snd].
    split; [done | apply Math_min_le_r].
  - intros n Hr Hi. destruct (rows s); [done|]. cbn [length Nat.eqb].
    by rewrite Hi, num_add_nat, Math_min_nat.
Qed.

(** The first of three cards reads 1/3. *)
Lemma footer_progress_three_tracks :
  footer (st three_tracks) = (num_of_nat 1, num_of_nat 3).
Proof.
  destruct (footer_progress (st three_tracks)) as (_ & _ & H).
  exact (H 0 ltac:(discriminate) eq_refl).
Defined.

(** ** What a page load leaves in storage *)

(** X11.  A page load never leaves unusable data behind: when what was
    stored is missing, empty, unparseable or not a valid snapshot,
    mounting overwrites it with the snapshot of the empty session,
    [{order: [], index: 0, rows: []}], before the catalog arrives.  A
    valid snapshot whose current track can be read is written back with
    its three fields only.  A valid snapshot whose current track cannot
    be read is lost: the render throws after the persist effect of the
    first render has put the empty session in storage, and there it
    stays. *)
Theorem mount_overwrites_storage (strict : bool) (saved : option text) :
  (valid_snapshot saved = None →
     localStorage (mount strict (boot saved))
       = Some (Json (snapshot (VArr []) (VNum (num_of_nat 0)) (VArr [])))) ∧
  (∀ r o i, valid_snapshot saved = Some (r, o, i) →
     (is_Some (current (restored r o i)) →
        localStorage (mount strict (boot saved))
          = Some (JSON_stringify (snapshot (VArr o) (VNum i) (VArr r)))) ∧
     (current (restored r o i) = None →
        localStorage (mount strict (boot saved))
          = Some (Json (snapshot (VArr []) (VNum (num_of_nat 0)) (VArr []))) ∧
        unmounted (mount strict (boot saved)) = true)) ∧
  (∃ v, localStorage (mount strict (boot saved)) = Some (Json v)).
Proof.
  rewrite mount_boot. split_and!.
  - by intros ->.
  - intros r o i ->. cbn [localStorage unmounted]. split.
    + intros Hc%renders_restored. by rewrite Hc.
    + intros Hc%renders_restored_false. by rewrite Hc.
  - destruct (valid_snapshot saved) as [[[r o] i]|]; cbn [localStorage].
    + destruct (renders _); [|by eexists].
      unfold JSON_stringify, snapshot. cbn [serialised]. by eexists.
    + by eexists.
Qed.

(** Unparseable text in storage is replaced by the empty session. *)
Lemma mount_overwrites_storage_garbage :
  localStorage (mount true (boot (Some Garbage)))
    = Some (Json (snapshot (VArr []) (VNum (num_of_nat 0)) (VArr []))).
Proof.
  destruct (mount_overwrites_storage true (Some Garbage)) as (H & _).
  exact (H eq_refl).
Defined.

(** X12.  A new session and the arrival of the catalog are saved at
    once: what the handler itself writes to storage is the snapshot of
    the state of the next render, the one the persist effect writes
    after it, so storage holds the new session before the render as
    after it. *)
Theorem saved_before_render (w : world) (ev : event) :
  queue w = [] →
  (∃ random, ev = Click_startNew random ∧ rows (st w) ≠ []) ∨
  (∃ random data, ev = Papa_complete random data ∧ requests w ≠ 0) →
  localStorage (handler ev w) = Some (JSON_stringify (snapshot_of (st (step w ev)))) ∧
  localStorage (step w ev) = localStorage (handler ev w).
Proof.
  intros Hq Hev.
  assert (Hh : localStorage (handler ev w)
               = Some (JSON_stringify (snapshot_of (st (step w ev))))).
  { destruct Hev as [(random & -> & Hr)|(random & data & -> & Hr)].
    - rewrite step_startNew_st by done. cbn [handler]. unfold startNew.
      destruct (rows (st w)) as [|r rs] eqn:E; [done|].
      cbn [length Nat.eqb localStorage setItem]. unfold snapshot_of. cbn [order index rows]. done.
    - rewrite step_complete_st by done. cbn [handler].
      destruct (requests w) as [|n]; [done|]. unfold complete. cbn [localStorage setItem]. done. }
  split; [done|]. unfold step in *. rewrite flush_localStorage.
  destruct (_ && _ && _); [by rewrite Hh | done].
Qed.

(** A new session over three tracks is in storage when the handler
    returns. *)
Lemma saved_before_render_three_tracks :
  let ev := Click_startNew half in
  localStorage (handler ev three_tracks)
    = Some (JSON_stringify (snapshot_of (st (step three_tracks ev)))) ∧
  localStorage (step three_tracks ev) = localStorage (handler ev three_tracks).
Proof.
  apply (saved_before_render three_tracks (Click_startNew half)); [reflexivity|].
  left. exists half. split; [reflexivity | discriminate].
Defined.

(** ** The rows of the catalog, field by field *)

Section catalog_rows.

Lemma lit_inj (s1 s2 : string) : lit s1 = lit s2 → s1 = s2.
Proof.
  unfold lit. intros H.
  rewrite <-(String.string_of_list_ascii_of_string s1),
          <-(String.string_of_list_ascii_of_string s2).
  f_equal. revert H.
  generalize (String.list_ascii_of_string s1) (String.list_ascii_of_string s2).
  induction l as [|a l IH]; intros [|b l']; cbn; try done.
  intros [= Hab Hl]. f_equal; [|by apply IH].
  by rewrite <-(Ascii.ascii_N_embedding a), <-(Ascii.ascii_N_embedding b), Hab.
Qed.

(** [String(n)] tells numbers apart. *)
Lemma String_of_nat_inj (a b : nat) : String_of_nat a = String_of_nat b → a = b.
Proof.
  unfold String_of_nat. intros H%lit_inj.
  assert (Hu : Nat.to_uint a = Nat.to_uint b).
  { apply (f_equal NilEmpty.uint_of_string) in H. rewrite !NilEmpty.usu in H.
    congruence. }
  by rewrite <-(DecimalNat.Unsigned.of_to a), <-(DecimalNat.Unsigned.of_to b), Hu.
Qed.

Lemma list_filter_sublist {A} (f : A → bool) (l : list A) :
  List.filter f l `sublist_of` l.
Proof.
  induction l as [|x l IH]; cbn; [done|].
  destruct (f x); by constructor.
Qed.

Lemma mapped_sublist (data : list raw_row) :
  mapped data `sublist_of` imap map_row data.
Proof. apply list_filter_sublist. Qed.

Lemma imap_ids (data : list raw_row) :
  (λ t, prop t (lit "id")) <$> imap map_row data
  = (λ i, Some (VStr (String_of_nat (i + 1)))) <$> seq 0 (length data).
Proof. rewrite fmap_imap. by rewrite <-imap_seq_0. Qed.

Lemma text_field (x y : option jsstring) : or_else x (or_else y []) = first_nonempty [x; y].
Proof. by destruct x as [[|??]|], y as [[|??]|]. Qed.

End catalog_rows.

(** X13.  Every row of the catalog is an object of five string fields
    made from one input row: [id] is the decimal of the row's 1-based
    position in the input, also counting the rows that were dropped;
    [Artist], [Title] and [Year] are the first non-empty of their two
    casings, kept as they are, or empty; [URL] is not empty and holds no
    whitespace.  The catalog keeps the order of the input. *)
Theorem catalog_rows_shape (data : list raw_row) :
  mapped data `sublist_of` imap map_row data ∧
  ∀ t, t ∈ mapped data →
    ∃ i r, data !! i = Some r ∧
      t = VObj
            [(lit "id", VStr (String_of_nat (i + 1)));
             (lit "Artist", VStr (first_nonempty [r !! lit "Artist"; r !! lit "artist"]));
             (lit "Title", VStr (first_nonempty [r !! lit "Title"; r !! lit "title"]));
             (lit "URL", VStr (normalised_URL r));
             (lit "Year", VStr (first_nonempty [r !! lit "Year"; r !! lit "year"]))] ∧
      normalised_URL r ≠ [] ∧
      Forall (λ c, is_whitespace c = false) (normalised_URL r).
Proof.
  split; [apply mapped_sublist|].
  intros t (i & r & Hi & Hn & ->)%mapped_elem. exists i, r. split_and!; [done| |done|].
  - unfold map_row, normalised_URL. by rewrite !text_field, raw_URL_first_nonempty.
  - apply Forall_forall. intros c Hc. by apply strip_whitespace_elem in Hc as [_ ?].
Qed.

(** X14.  No two rows of the catalog have the same [id]. *)
Theorem catalog_ids_distinct (data : list raw_row) :
  NoDup ((λ t, prop t (lit "id")) <$> mapped data).
Proof.
  eapply sublist_NoDup; [|apply fmap_sublist, mapped_sublist].
  rewrite imap_ids. apply NoDup_fmap_2_strong; [|apply NoDup_seq].
  intros a b _ _ [= H]. apply String_of_nat_inj in H. lia.
Qed.

(** ** The shuffle of any array *)

Section shuffle_reach.

Lemma zero_unit_double : unit_double 0.
Proof. exists 0%Z, 0%Z. split_and!; done. Qed.

(** The loop reads the draws from [calls] on only. *)
Lemma shuffle_loop_ext (random random' : nat → Q) (i calls : nat) (a : list val) :
  (∀ k, calls ≤ k → random k = random' k) →
  shuffle_loop random calls i a = shuffle_loop random' calls i a.
Proof.
  revert calls a. induction i as [|i IH]; intros calls a H; [done|].
  cbn [shuffle_loop]. rewrite (H calls) by done. apply IH. intros k Hk. apply H. lia.
Qed.

(** Arrays of at most one element come back as they are, whatever the
    draws. *)
Lemma shuffle_short (random : nat → Q) (arr : list val) :
  length arr ≤ 1 → shuffle random arr = arr.
Proof.
  intros H. unfold shuffle.
  replace (length arr - 1) with 0 by lia. done.
Qed.

(** The loop from [i] over an array whose first [i + 1] elements are [l]
    can leave them in any order [p]; what follows them stays. *)
Lemma shuffle_loop_reaches (i : nat) :
  ∀ (l p rest : list val) (calls : nat),
    length l = S i → (Z.of_nat (S i) ≤ 2 ^ 32)%Z → p ≡ₚ l →
    ∃ random, (∀ k, unit_double (random k)) ∧
              shuffle_loop random calls i (l ++ rest) = p ++ rest.
Proof.
  induction i as [|i IH]; intros l p rest calls Hl Hlen Hp.
  - exists (λ _, 0%Q). split; [intros _; apply zero_unit_double|]. cbn [shuffle_loop].
    destruct l as [|x [|??]]; try done.
    by apply Permutation_singleton_r in Hp as ->.
  - assert (Hlp : length p = S (S i)) by by rewrite Hp.
    destruct (lookup_lt_is_Some_2 p (S i) ltac:(lia)) as [y Hy].
    assert (Hyl : y ∈ l) by (rewrite <-Hp; by eapply list_elem_of_lookup_2).
    apply list_elem_of_lookup in Hyl as [j Hj].
    pose proof (lookup_lt_Some _ _ _ Hj) as Hjl.
    destruct (lookup_lt_is_Some_2 l (S i) ltac:(lia)) as [x Hx].
    destruct (scaled_floor_onto (S i) j ltac:(lia) ltac:(lia)) as (r & Hr & Hrj).
    set (a := l ++ rest).
    assert (Hax : a !! S i = Some x) by (unfold a; by rewrite lookup_app_l by lia).
    assert (Haj : a !! j = Some y) by (unfold a; by rewrite lookup_app_l by lia).
    set (a' := <[j:=x]> (<[S i:=y]> a)).
    assert (Hla : length a = S (S i) + length rest) by (unfold a; rewrite length_app; lia).
    assert (Hla' : length a' = length a) by (unfold a'; by rewrite !length_insert).
    assert (Hy' : a' !! S i = Some y).
    { unfold a'. destruct (decide (j = S i)) as [->|Hne].
      - rewrite list_lookup_insert_eq by (rewrite length_insert; lia). congruence.
      - rewrite list_lookup_insert_ne by done.
        by rewrite list_lookup_insert_eq by lia. }
    assert (Hdrop : drop (S (S i)) a' = rest).
    { unfold a'. rewrite !drop_insert_lt by lia. unfold a.
      by rewrite drop_app_length' by done. }
    assert (Hsplit : a' = take (S i) a' ++ y :: rest).
    { by rewrite <-Hdrop, take_drop_middle. }
    assert (Hperm : take (S i) a' ≡ₚ take (S i) p).
    { assert (Hp' : p = take (S i) p ++ [y]).
      { rewrite <-(take_drop_middle p (S i) y Hy) at 1.
        by rewrite drop_ge by lia. }
      assert (Ha' : a' ≡ₚ a) by (unfold a'; by apply Permutation_insert_swap).
      rewrite Hsplit in Ha'. unfold a in Ha'. rewrite <-Hp, Hp' in Ha'.
      rewrite <-(assoc_L (++)) in Ha'. cbn [app] in Ha'.
      by apply (inj (.++ (y :: rest))) in Ha'. }
    destruct (IH (take (S i) a') (take (S i) p) (y :: rest) (S calls))
      as (random' & Hc' & Hloop).
    { rewrite length_take. lia. }
    { lia. }
    { by symmetry. }
    exists (λ k, if decide (k = calls) then r else random' k). split.
    + intros k. by case_decide.
    + cbn [shuffle_loop]. rewrite decide_True by done. rewrite Hrj.
      fold a.
      destruct (swap_in_range a (S i) j ltac:(lia) ltac:(lia))
        as (x' & y' & Hx' & Hy'' & ->).
      assert (x' = x) as -> by congruence. assert (y' = y) as -> by congruence.
      fold a'. rewrite (shuffle_loop_ext _ random').
      * rewrite Hsplit, Hloop.
        rewrite <-(take_drop_middle p (S i) y Hy) at 2.
        rewrite (drop_ge p) by lia. by rewrite <-(assoc_L (++)).
      * intros k Hk. by rewrite decide_False by lia.
Qed.

End shuffle_reach.

(** X15.  [shuffle] works on any array, not only on positions: for
    draws that are doubles in [[0, 1)] the result has the same elements
    with the same multiplicities and the same length; an array of no or
    one element comes back as it is without a draw being looked at; and
    every arrangement of an array of fewer than [2^32] elements, which
    is what an array can hold, is the result for some such draws. *)
Theorem shuffle_any_array (arr : list val) :
  (∀ random, (∀ k, unit_double (random k)) →
     shuffle random arr ≡ₚ arr ∧ length (shuffle random arr) = length arr) ∧
  (∀ random, length arr ≤ 1 → shuffle random arr = arr) ∧
  (∀ p, (Z.of_nat (length arr) < 2 ^ 32)%Z → p ≡ₚ arr →
     ∃ random, (∀ k, unit_double (random k)) ∧ shuffle random arr = p).
Proof.
  split_and!.
  - intros random Hr. pose proof (shuffle_Permutation random Hr arr) as Hp.
    split; [done | by rewrite Hp].
  - intros random. apply shuffle_short.
  - intros p Hlen Hp. destruct arr as [|x arr].
    + apply Permutation_nil_r in Hp as ->. exists (λ _, 0%Q).
      split; [intros _; apply zero_unit_double | done].
    + destruct (shuffle_loop_reaches (length arr) (x :: arr) p [] 0 eq_refl
                  ltac:(cbn [length] in Hlen; lia) Hp)
        as (random & Hc & Hs).
      exists random. split; [done|]. unfold shuffle.
      rewrite !(right_id_L [] (++)) in Hs. rewrite <-Hs. cbn [length]. f_equal. lia.
Qed.

(** An array of three values: the shuffle with every draw at one half is
    an arrangement of it, and some draws reverse it. *)
Lemma shuffle_any_array_three :
  let arr := [VNull; VBool true; VBool false] in
  shuffle half arr ≡ₚ arr ∧
  ∃ random, (∀ k, unit_double (random k)) ∧
            shuffle random arr = [VBool false; VBool true; VNull].
Proof.
  destruct (shuffle_any_array [VNull; VBool true; VBool false]) as (H1 & _ & H3).
  split.
  - apply H1. exact half_unit_double.
  - apply H3; [reflexivity|]. apply perm_trans with [VBool true; VBool false; VNull].
    + apply perm_swap.
    + apply Permutation_sym, (Permutation_cons_append [VBool true; VBool false] VNull).
Defined.
